(** * Scalar constraint translation of protoc-gen-jsonschema

    A shallow embedding of [internal/module/scalar.go]: the scalar
    dispatcher, the boolean, bytes and string constraint translators, and the
    rewriter that renders a [regexp/syntax] tree as an ECMAScript pattern.

    Go strings are byte strings and are modelled by [string]; Go [int] and
    [uint64] values are modelled by [Z] and [N] (the code does no arithmetic
    on them, so no wrap-around arises). *)

From Stdlib Require Import String Ascii List ZArith NArith Bool Lia.
From Stdlib Require Import DecimalString.
Import ListNotations.
Local Open Scope list_scope.
Local Open Scope string_scope.
Set Warnings "-register-all".

(** ** Outcomes of a run

    [m.Failf] and [m.CheckErr] end the whole generation run; indexing an
    empty slice panics.  Both are outcomes without a value. *)

Inductive Failure : Type :=
| UnexpectedScalarType
| FailedToParseRegularExpression
| FailedToCheckEmptyMatch
| IndexOutOfRange.

Inductive Result (A : Type) : Type :=
| Ok (a : A)
| Abort (f : Failure).

Arguments Ok {A} a.
Arguments Abort {A} f.

Definition bind {A B : Type} (r : Result A) (k : A -> Result B) : Result B :=
  match r with
  | Ok a => k a
  | Abort f => Abort f
  end.

Notation "x <- c ;; k" := (bind c (fun x => k))
  (at level 61, c at next level, right associativity).

Definition succeeds {A : Type} (r : Result A) : Prop :=
  exists a, r = Ok a.

Definition aborts {A : Type} (r : Result A) : Prop :=
  exists f, r = Abort f.

(** ** The syntax tree of [regexp/syntax] *)

Module Syntax.

(** [syntax.Op], in declaration order; [OpNoMatch] is [1 + iota]. *)
Inductive Op : Type :=
| OpNoMatch | OpEmptyMatch | OpLiteral | OpCharClass | OpAnyCharNotNL
| OpAnyChar | OpBeginLine | OpEndLine | OpBeginText | OpEndText
| OpWordBoundary | OpNoWordBoundary | OpCapture | OpStar | OpPlus
| OpQuest | OpRepeat | OpConcat | OpAlternate.

Definition code (o : Op) : Z :=
  match o with
  | OpNoMatch => 1 | OpEmptyMatch => 2 | OpLiteral => 3 | OpCharClass => 4
  | OpAnyCharNotNL => 5 | OpAnyChar => 6 | OpBeginLine => 7 | OpEndLine => 8
  | OpBeginText => 9 | OpEndText => 10 | OpWordBoundary => 11
  | OpNoWordBoundary => 12 | OpCapture => 13 | OpStar => 14 | OpPlus => 15
  | OpQuest => 16 | OpRepeat => 17 | OpConcat => 18 | OpAlternate => 19
  end%Z.

Definition op_eqb (a b : Op) : bool := Z.eqb (code a) (code b).

(** [syntax.Regexp]: operator, subexpressions, matched runes, and the
    bounds of a repeat. *)
Inductive Regexp : Type :=
  mkRegexp {
    op : Op;
    Sub : list Regexp;
    Rune : list Z;
    Min : Z;
    Max : Z
  }.

End Syntax.
Import Syntax.

(** [strconv.Itoa]. *)
Definition Itoa (n : Z) : string := NilZero.string_of_int (Z.to_int n).

(** [regexp.QuoteMeta]: every byte of [\.+*?()|[]{}^$] gets a backslash. *)
Definition special (b : ascii) : bool :=
  existsb (Ascii.eqb b) (list_ascii_of_string "\.+*?()|[]{}^$").

Fixpoint QuoteMeta (s : string) : string :=
  match s with
  | EmptyString => EmptyString
  | String b rest =>
      if special b then String "\" (String b (QuoteMeta rest))
      else String b (QuoteMeta rest)
  end.

Section Rewriter.

(** The [String] method of [syntax.Regexp], the source dialect's own
    rendering. *)
Variable regexpString : Regexp -> string.

(** The operators of the case at line 244. *)
Definition isQuantifier (o : Op) : Prop :=
  o = OpStar \/ o = OpPlus \/ o = OpQuest \/ o = OpRepeat.

(** The test of line 246. *)
Definition needsGroup (subexpression : Regexp) : bool :=
  (code OpCapture <? code (op subexpression))%Z
  || (op_eqb (op subexpression) OpLiteral
      && (1 <? length (Rune subexpression))%nat).

(** Lines 254-275: the text written after the operand. *)
Definition quantifier (expression : Regexp) : string :=
  match op expression with
  | OpStar => "*"
  | OpPlus => "+"
  | OpQuest => "?"
  | OpRepeat =>
      "{" ++ Itoa (Min expression)
      ++ (if (Max expression =? Min expression)%Z then ""
          else "," ++ (if (0 <=? Max expression)%Z
                       then Itoa (Max expression) else ""))
      ++ "}"
  | _ => ""
  end.

(** [writeECMAScriptCompatibleRegexp], as the text it appends to the
    builder; [Sub[0]] of a node without subexpressions panics. *)
Fixpoint writeECMAScriptCompatibleRegexp (expression : Regexp)
  : Result string :=
  match expression with
  | mkRegexp o sub _ _ _ =>
      match o with
      | OpAnyCharNotNL => Ok "."
      | OpAnyChar => Ok "[\s\S]"
      | OpBeginLine | OpBeginText => Ok "^"
      | OpEndLine | OpEndText => Ok "$"
      | OpCapture =>
          match sub with
          | [] => Abort IndexOutOfRange
          | subexpression :: _ =>
              s <- writeECMAScriptCompatibleRegexp subexpression ;;
              Ok ("(" ++ s ++ ")")
          end
      | OpStar | OpPlus | OpQuest | OpRepeat =>
          match sub with
          | [] => Abort IndexOutOfRange
          | subexpression :: _ =>
              s <- writeECMAScriptCompatibleRegexp subexpression ;;
              Ok ((if needsGroup subexpression
                   then "(?:" ++ s ++ ")" else s)
                  ++ quantifier expression)
          end
      | OpConcat =>
          (fix loop (l : list Regexp) : Result string :=
             match l with
             | [] => Ok ""
             | subexpression :: rest =>
                 s <- writeECMAScriptCompatibleRegexp subexpression ;;
                 t <- loop rest ;;
                 Ok ((if op_eqb (op subexpression) OpAlternate
                      then "(?:" ++ s ++ ")" else s) ++ t)
             end) sub
      | OpAlternate =>
          (fix loop (first : bool) (l : list Regexp) : Result string :=
             match l with
             | [] => Ok ""
             | subexpression :: rest =>
                 s <- writeECMAScriptCompatibleRegexp subexpression ;;
                 t <- loop false rest ;;
                 Ok ((if first then "" else "|") ++ s ++ t)
             end) true sub
      | _ => Ok (regexpString expression)
      end
  end.

(** Lines 278-284: the text a concatenation writes for one subexpression. *)
Definition concatItem (c : Regexp) : Result string :=
  s <- writeECMAScriptCompatibleRegexp c ;;
  Ok (if op_eqb (op c) OpAlternate then "(?:" ++ s ++ ")" else s).

(** [makeRegexpCompatibleWithECMAScript] and [matchesEmptyString] are
    defined below, in the section that also fixes the parser. *)

End Rewriter.


(** ** Rule sets of [buf/validate]

    The generated message types: a pointer field is an [option], a repeated
    or bytes field a list (only its length is ever inspected), a oneof an
    [option] of its wrapper type. *)

Module BoolRules.
Record t : Type := mk { Const : option bool }.
End BoolRules.

Module BytesRules.
Inductive isWellKnown : Type :=
| BytesRules_Ip (v : bool)
| BytesRules_Ipv4 (v : bool)
| BytesRules_Ipv6 (v : bool).

Record t : Type := mk {
  Const : list Byte.byte;
  Len : option N;
  MinLen : option N;
  MaxLen : option N;
  Pattern : option string;
  Prefix : list Byte.byte;
  Suffix : list Byte.byte;
  Contains : list Byte.byte;
  In : list (list Byte.byte);
  NotIn : list (list Byte.byte);
  WellKnown : option isWellKnown
}.

(** The rule set with no rule present. *)
Definition empty : t := mk [] None None None None [] [] [] [] [] None.
End BytesRules.

Module StringRules.
Inductive isWellKnown : Type :=
| StringRules_Email (v : bool)
| StringRules_Hostname (v : bool)
| StringRules_Ip (v : bool)
| StringRules_Ipv4 (v : bool)
| StringRules_Ipv6 (v : bool)
| StringRules_Uri (v : bool)
| StringRules_UriRef (v : bool)
| StringRules_Address (v : bool).

Record t : Type := mk {
  Const : option string;
  Len : option N;
  MinLen : option N;
  MaxLen : option N;
  LenBytes : option N;
  MinBytes : option N;
  MaxBytes : option N;
  Pattern : option string;
  Prefix : option string;
  Suffix : option string;
  Contains : option string;
  NotContains : option string;
  In : list string;
  NotIn : list string;
  WellKnown : option isWellKnown
}.

(** The rule set with no rule present. *)
Definition empty : t :=
  mk None None None None None None None None None None None None [] [] None.

(** The rule set whose sole rule is Pattern = [p]. *)
Definition onlyPattern (p : string) : t :=
  mk None None None None None None None (Some p) None None None None [] []
     None.
End StringRules.

Module FieldConstraints.
Inductive isType : Type :=
| FieldConstraints_Bool (r : BoolRules.t)
| FieldConstraints_Bytes (r : BytesRules.t)
| FieldConstraints_String (r : StringRules.t)
| FieldConstraints_Other.

Record t : Type := mk {
  IgnoreEmpty : bool;
  Type_ : option isType
}.

(** The getters accept a nil receiver. *)
Definition GetBool (c : option t) : option BoolRules.t :=
  match c with
  | Some (mk _ (Some (FieldConstraints_Bool r))) => Some r
  | _ => None
  end.

Definition GetBytes (c : option t) : option BytesRules.t :=
  match c with
  | Some (mk _ (Some (FieldConstraints_Bytes r))) => Some r
  | _ => None
  end.

Definition GetString_ (c : option t) : option StringRules.t :=
  match c with
  | Some (mk _ (Some (FieldConstraints_String r))) => Some r
  | _ => None
  end.
End FieldConstraints.

(** ** Scalar kinds of protoc-gen-star *)

Inductive ProtoType : Type :=
| DoubleT | FloatT | Int64T | UInt64T | Int32T | Fixed64T | Fixed32T
| BoolT | StringT | GroupT | MessageT | BytesT | UInt32T | EnumT
| SFixed32 | SFixed64 | SInt32 | SInt64.

Definition IsNumeric (pt : ProtoType) : bool :=
  match pt with
  | DoubleT | FloatT | Int64T | UInt64T | Int32T | Fixed64T | Fixed32T
  | UInt32T | SFixed32 | SFixed64 | SInt32 | SInt64 => true
  | _ => false
  end.

(** ** The document schema *)

Module jsonschema.

Inductive StringFormat : Type :=
| StringFormatEmail | StringFormatHostname | StringFormatIPv4
| StringFormatIPv6 | StringFormatURI | StringFormatURIReference.

(** Modelled from the spec: the package [internal/jsonschema] is not part of
    the sources at hand.  A schema node has the attributes [Type], [Const],
    [Enum], [Pattern], [MinLength], [MaxLength], [Format] and the
    composition operators [AllOf], [AnyOf], [OneOf], [Not] over child nodes;
    [Title] is the one further attribute that the translators assign.  The
    [Type] attribute is the constructor: [Boolean] or [String]. *)
Record StringSchema (child : Type) : Type := mkString {
  Title : string;
  Const : option string;
  Enum : list string;
  Format : option StringFormat;
  MaxLength : option N;
  MinLength : option N;
  Pattern : string;
  OneOf : list child
}.

Arguments mkString {child}.
Arguments Title {child}.
Arguments Const {child}.
Arguments Enum {child}.
Arguments Format {child}.
Arguments MaxLength {child}.
Arguments MinLength {child}.
Arguments Pattern {child}.
Arguments OneOf {child}.

Inductive Schema : Type :=
| Boolean (const : option bool)
| String_ (s : StringSchema Schema)
| AllOf (schemas : list Schema)
| AnyOf (schemas : list Schema)
| Not (schema : Schema).

Definition NewStringSchema : StringSchema Schema :=
  mkString "" None [] None None None "" [].

Definition NewBooleanSchema : Schema := Boolean None.

Section Setters.
Context {child : Type}.
Implicit Type s : StringSchema child.

Definition setTitle (v : string) s :=
  mkString v (Const s) (Enum s) (Format s) (MaxLength s) (MinLength s)
           (Pattern s) (OneOf s).
Definition setConst (v : option string) s :=
  mkString (Title s) v (Enum s) (Format s) (MaxLength s) (MinLength s)
           (Pattern s) (OneOf s).
Definition setEnum (v : list string) s :=
  mkString (Title s) (Const s) v (Format s) (MaxLength s) (MinLength s)
           (Pattern s) (OneOf s).
Definition setFormat (v : option StringFormat) s :=
  mkString (Title s) (Const s) (Enum s) v (MaxLength s) (MinLength s)
           (Pattern s) (OneOf s).
Definition setMaxLength (v : option N) s :=
  mkString (Title s) (Const s) (Enum s) (Format s) v (MinLength s)
           (Pattern s) (OneOf s).
Definition setMinLength (v : option N) s :=
  mkString (Title s) (Const s) (Enum s) (Format s) (MaxLength s) v
           (Pattern s) (OneOf s).
Definition setPattern (v : string) s :=
  mkString (Title s) (Const s) (Enum s) (Format s) (MaxLength s)
           (MinLength s) v (OneOf s).
Definition setOneOf (v : list child) s :=
  mkString (Title s) (Const s) (Enum s) (Format s) (MaxLength s)
           (MinLength s) (Pattern s) v.
End Setters.

End jsonschema.
Import jsonschema.

(** ** The translators *)

(** The local variables of [schemaForString].  The Go slice [schemas]
    starts with a pointer to [schema], so its first element follows every
    later assignment to [schema]; [schemas] here holds what is appended
    after that first element. *)
Record StringState : Type := mkState {
  schema : StringSchema Schema;
  schemas : list Schema;
  patterns : list string;
  required : bool
}.

Definition onSchema (f : StringSchema Schema -> StringSchema Schema)
  (st : StringState) : StringState :=
  mkState (f (schema st)) (schemas st) (patterns st) (required st).

Definition appendSchema (s : Schema) (st : StringState) : StringState :=
  mkState (schema st) (schemas st ++ [s])%list (patterns st) (required st).

Definition appendPattern (p : string) (st : StringState) : StringState :=
  mkState (schema st) (schemas st) (patterns st ++ [p])%list (required st).

Definition setRequired (b : bool) (st : StringState) : StringState :=
  mkState (schema st) (schemas st) (patterns st) b.

Definition nonEmpty {A : Type} (l : list A) : bool :=
  (0 <? length l)%nat.

Definition isSome {A : Type} (o : option A) : bool :=
  match o with Some _ => true | None => false end.

Section Translators.

(** The [String] method of [syntax.Regexp]. *)
Variable regexpString : Regexp -> string.

(** [syntax.Parse] under the [syntax.Perl] flags; [None] is a parse error. *)
Variable Parse : string -> option Regexp.

(** [regexp.MatchString]; [None] is its error. *)
Variable MatchString : string -> string -> option bool.

(** Modelled from the spec: [schemaForNumericScalar] is not part of the
    sources at hand; it is a numeric-scalar translator with the same
    (kind, rules) -> (SchemaNode, RequiredFlag) shape. *)
Variable schemaForNumericScalar :
  ProtoType -> option FieldConstraints.t -> Schema * bool.

Definition makeRegexpCompatibleWithECMAScript (pattern : string)
  : Result string :=
  match Parse pattern with
  | None => Abort FailedToParseRegularExpression
  | Some expression => writeECMAScriptCompatibleRegexp regexpString expression
  end.

Definition matchesEmptyString (pattern : string) : Result bool :=
  match MatchString pattern "" with
  | None => Abort FailedToCheckEmptyMatch
  | Some m => Ok m
  end.

Definition schemaForBool (rules : option BoolRules.t) : Schema * bool :=
  let required := false in
  let schema := NewBooleanSchema in
  match rules with
  | Some rules =>
      match BoolRules.Const rules with
      | Some c => (Boolean (Some c), true)
      | None => (schema, required)
      end
  | None => (schema, required)
  end.

Definition standard : StringSchema Schema :=
  setPattern "^[\r\nA-Za-z0-9+/]*$"
    (setTitle "Standard base64 encoding" NewStringSchema).

Definition urlSafe : StringSchema Schema :=
  setPattern "^[\r\nA-Za-z0-9_-]*$"
    (setTitle "URL-safe base64 encoding" NewStringSchema).

Definition schemaForBytes (rules : option BytesRules.t) (ignoreEmpty : bool)
  : Schema * bool :=
  let schema := setOneOf [String_ standard; String_ urlSafe] NewStringSchema in
  let required :=
    match rules with
    | None => false
    | Some rules =>
        negb ignoreEmpty
        && (nonEmpty (BytesRules.Const rules)
            || nonEmpty (BytesRules.Contains rules)
            || nonEmpty (BytesRules.In rules)
            || isSome (BytesRules.MinLen rules)
            || isSome (BytesRules.Pattern rules)
            || nonEmpty (BytesRules.Prefix rules)
            || nonEmpty (BytesRules.Suffix rules)
            || isSome (BytesRules.WellKnown rules))
    end in
  (String_ schema, required).

Definition schemaForStringFormats (formats : list StringFormat) : Schema :=
  AnyOf (map (fun format => String_ (setFormat (Some format) NewStringSchema))
             formats).

(** *** The rule blocks of [schemaForString], in source order *)

Section Rules.
Variable rules : StringRules.t.
Variable ignoreEmpty : bool.

(* lines 100-103 *)
Definition ruleConst (st : StringState) : StringState :=
  match StringRules.Const rules with
  | Some c => setRequired (negb ignoreEmpty) (onSchema (setConst (Some c)) st)
  | None => st
  end.

(* lines 105-108 *)
Definition ruleContains (st : StringState) : StringState :=
  match StringRules.Contains rules with
  | Some c => setRequired (negb ignoreEmpty) (appendPattern (QuoteMeta c) st)
  | None => st
  end.

(* lines 110-113 *)
Definition ruleIn (st : StringState) : StringState :=
  if nonEmpty (StringRules.In rules)
  then setRequired (negb ignoreEmpty)
         (onSchema (setEnum (StringRules.In rules)) st)
  else st.

(* lines 115-119 *)
Definition ruleLen (st : StringState) : StringState :=
  match StringRules.Len rules with
  | Some n =>
      setRequired (negb ignoreEmpty)
        (onSchema (setMinLength (Some n))
           (onSchema (setMaxLength (Some n)) st))
  | None => st
  end.

(* lines 121-123 *)
Definition ruleLenBytes (st : StringState) : StringState :=
  if isSome (StringRules.LenBytes rules) || isSome (StringRules.MinBytes rules)
  then setRequired (negb ignoreEmpty) st
  else st.

(* lines 125-127 *)
Definition ruleMaxLen (st : StringState) : StringState :=
  match StringRules.MaxLen rules with
  | Some n => onSchema (setMaxLength (Some n)) st
  | None => st
  end.

(* lines 129-132 *)
Definition ruleMinLen (st : StringState) : StringState :=
  match StringRules.MinLen rules with
  | Some n =>
      setRequired (negb ignoreEmpty) (onSchema (setMinLength (Some n)) st)
  | None => st
  end.

(* lines 134-138 *)
Definition ruleNotContains (st : StringState) : StringState :=
  match StringRules.NotContains rules with
  | Some c =>
      appendSchema (Not (String_ (setPattern (QuoteMeta c) NewStringSchema))) st
  | None => st
  end.

(* lines 140-144 *)
Definition ruleNotIn (st : StringState) : StringState :=
  if nonEmpty (StringRules.NotIn rules)
  then appendSchema
         (Not (String_ (setEnum (StringRules.NotIn rules) NewStringSchema))) st
  else st.

(* lines 146-151 *)
Definition rulePattern (st : StringState) : Result StringState :=
  match StringRules.Pattern rules with
  | Some p =>
      pattern <- makeRegexpCompatibleWithECMAScript p ;;
      let st := appendPattern pattern st in
      empty <- matchesEmptyString p ;;
      Ok (if negb empty then setRequired (negb ignoreEmpty) st else st)
  | None => Ok st
  end.

(* lines 153-156 *)
Definition rulePrefix (st : StringState) : StringState :=
  match StringRules.Prefix rules with
  | Some p =>
      setRequired (negb ignoreEmpty) (appendPattern ("^" ++ QuoteMeta p) st)
  | None => st
  end.

(* lines 158-161 *)
Definition ruleSuffix (st : StringState) : StringState :=
  match StringRules.Suffix rules with
  | Some s =>
      setRequired (negb ignoreEmpty) (appendPattern (QuoteMeta s ++ "$") st)
  | None => st
  end.

(* lines 163-191 *)
Definition ruleWellKnown (st : StringState) : StringState :=
  match StringRules.WellKnown rules with
  | Some wellKnown =>
      setRequired (negb ignoreEmpty)
        match wellKnown with
        | StringRules.StringRules_Address _ =>
            appendSchema
              (schemaForStringFormats
                 [StringFormatHostname; StringFormatIPv4; StringFormatIPv6]) st
        | StringRules.StringRules_Email _ =>
            onSchema (setFormat (Some StringFormatEmail)) st
        | StringRules.StringRules_Hostname _ =>
            onSchema (setFormat (Some StringFormatHostname)) st
        | StringRules.StringRules_Ip _ =>
            appendSchema
              (schemaForStringFormats [StringFormatIPv4; StringFormatIPv6]) st
        | StringRules.StringRules_Ipv4 _ =>
            onSchema (setFormat (Some StringFormatIPv4)) st
        | StringRules.StringRules_Ipv6 _ =>
            onSchema (setFormat (Some StringFormatIPv6)) st
        | StringRules.StringRules_Uri _ =>
            onSchema (setFormat (Some StringFormatURI)) st
        | StringRules.StringRules_UriRef _ =>
            onSchema (setFormat (Some StringFormatURIReference)) st
        end
  | None => st
  end.

(** Lines 99-192 for a rule set that is not nil. *)
Definition applyRules (st : StringState) : Result StringState :=
  let st := ruleConst st in
  let st := ruleContains st in
  let st := ruleIn st in
  let st := ruleLen st in
  let st := ruleLenBytes st in
  let st := ruleMaxLen st in
  let st := ruleMinLen st in
  let st := ruleNotContains st in
  let st := ruleNotIn st in
  st <- rulePattern st ;;
  let st := rulePrefix st in
  let st := ruleSuffix st in
  Ok (ruleWellKnown st).

End Rules.

(** Lines 93-192: the state when the merge of the patterns starts. *)
Definition collectString (rules : option StringRules.t) (ignoreEmpty : bool)
  : Result StringState :=
  let st := mkState NewStringSchema [] [] false in
  match rules with
  | Some rules => applyRules rules ignoreEmpty st
  | None => Ok st
  end.

(** Lines 194-202. *)
Definition mergePatterns (st : StringState) : StringState :=
  match patterns st with
  | [pattern] => onSchema (setPattern pattern) st
  | patterns =>
      fold_left
        (fun st pattern =>
           appendSchema (String_ (setPattern pattern NewStringSchema)) st)
        patterns st
  end.

Definition schemaForString (rules : option StringRules.t) (ignoreEmpty : bool)
  : Result (Schema * bool) :=
  st <- collectString rules ignoreEmpty ;;
  let st := mergePatterns st in
  Ok (AllOf (String_ (schema st) :: schemas st), required st).

Definition schemaForScalar (scalar : ProtoType)
  (constraints : option FieldConstraints.t) : Result (Schema * bool) :=
  if IsNumeric scalar then Ok (schemaForNumericScalar scalar constraints)
  else
    let ignoreEmpty :=
      match constraints with
      | Some c => FieldConstraints.IgnoreEmpty c
      | None => false
      end in
    match scalar with
    | BoolT => Ok (schemaForBool (FieldConstraints.GetBool constraints))
    | BytesT =>
        Ok (schemaForBytes (FieldConstraints.GetBytes constraints) ignoreEmpty)
    | StringT =>
        schemaForString (FieldConstraints.GetString_ constraints) ignoreEmpty
    | _ => Abort UnexpectedScalarType
    end.

(** *** Closed forms, for the statements about [schemaForString] *)

Definition fragment (o : option string) : list string :=
  match o with
  | Some p => [p]
  | None => []
  end.

(** The fragment that the Pattern rule contributes. *)
Definition patternFragment (rules : StringRules.t) : list string :=
  match StringRules.Pattern rules with
  | Some p =>
      match makeRegexpCompatibleWithECMAScript p with
      | Ok pattern => [pattern]
      | Abort _ => []
      end
  | None => []
  end.

(** The Pattern rule is present and the probe reports no empty match. *)
Definition patternRequires (rules : StringRules.t) : bool :=
  match StringRules.Pattern rules with
  | Some p =>
      match matchesEmptyString p with
      | Ok empty => negb empty
      | Abort _ => false
      end
  | None => false
  end.

(** Neither the rewrite nor the probe of the Pattern rule ends the run. *)
Definition patternChecks (rules : option StringRules.t) : Prop :=
  match rules with
  | Some rules =>
      match StringRules.Pattern rules with
      | Some p =>
          succeeds (makeRegexpCompatibleWithECMAScript p)
          /\ succeeds (matchesEmptyString p)
      | None => True
      end
  | None => True
  end.

(** The pattern fragments in the order the rule blocks append them. *)
Definition containsFragment (rules : StringRules.t) : list string :=
  fragment (option_map QuoteMeta (StringRules.Contains rules)).

Definition prefixFragment (rules : StringRules.t) : list string :=
  fragment (option_map (fun p => "^" ++ QuoteMeta p)
                       (StringRules.Prefix rules)).

Definition suffixFragment (rules : StringRules.t) : list string :=
  fragment (option_map (fun s => QuoteMeta s ++ "$")
                       (StringRules.Suffix rules)).

Definition collectedPatterns (rules : StringRules.t) : list string :=
  (containsFragment rules ++ patternFragment rules
   ++ prefixFragment rules ++ suffixFragment rules)%list.

(** Some rule block assigns [required]. *)
Definition impliesRequired (rules : StringRules.t) : bool :=
  isSome (StringRules.Const rules)
  || isSome (StringRules.Contains rules)
  || nonEmpty (StringRules.In rules)
  || isSome (StringRules.Len rules)
  || (isSome (StringRules.LenBytes rules)
      || isSome (StringRules.MinBytes rules))
  || isSome (StringRules.MinLen rules)
  || patternRequires rules
  || isSome (StringRules.Prefix rules)
  || isSome (StringRules.Suffix rules)
  || isSome (StringRules.WellKnown rules).

End Translators.

(** Some rule set of the constraints carries a Pattern rule whose text the
    parser rejects. *)
Definition patternRuleFailsToParse (Parse : string -> option Regexp)
  (constraints : option FieldConstraints.t) : Prop :=
  exists p,
    ((exists r, FieldConstraints.GetString_ constraints = Some r
                /\ StringRules.Pattern r = Some p)
     \/ (exists r, FieldConstraints.GetBytes constraints = Some r
                   /\ BytesRules.Pattern r = Some p))
    /\ Parse p = None.

(** The schemas that the rule blocks append: negations and disjunctions of
    formats. *)
Definition isFragment (s : Schema) : Prop :=
  match s with
  | Not (String_ _) | AnyOf _ => True
  | _ => False
  end.

(** What one rule block does to the state: it appends the pattern
    fragments [frag], assigns [required] when [trig] holds, leaves the
    Pattern attribute of the base schema alone and appends only fragments to
    [schemas]. *)
Definition stepSpec (ignoreEmpty : bool)
  (f : StringState -> StringState) (frag : list string) (trig : bool)
  : Prop :=
  forall st,
    patterns (f st) = (patterns st ++ frag)%list
    /\ required (f st) = (if trig then negb ignoreEmpty else required st)
    /\ Pattern (schema (f st)) = Pattern (schema st)
    /\ (Forall isFragment (schemas st) -> Forall isFragment (schemas (f st))).

(** ** Well-formed syntax trees

    What the parser guarantees about the trees it returns: a capture or a
    repetition has exactly one subexpression. *)

Fixpoint wellFormed (expression : Regexp) : bool :=
  match expression with
  | mkRegexp o sub _ _ _ =>
      match o with
      | OpCapture | OpStar | OpPlus | OpQuest | OpRepeat =>
          (length sub =? 1)%nat
      | _ => true
      end
      && (fix all (l : list Regexp) : bool :=
            match l with
            | [] => true
            | subexpression :: rest => wellFormed subexpression && all rest
            end) sub
  end.

(** Texts of several subexpressions, for stating what a loop writes. *)
Fixpoint mapResult {A B : Type} (f : A -> Result B) (l : list A)
  : Result (list B) :=
  match l with
  | [] => Ok []
  | x :: rest => y <- f x ;; ys <- mapResult f rest ;; Ok (y :: ys)
  end.

(** [occurs p s]: the text [p] occurs inside [s]. *)
Definition occurs (p s : string) : Prop :=
  exists before after, s = before ++ p ++ after.

(** The reading of "an alternation below a node other than a concatenation
    is written without a non-capturing group": the grouped text of the
    alternation does not occur in what the parent writes. *)
Definition alternationBareOutsideConcat (regexpString : Regexp -> string)
  : Prop :=
  forall (e c : Regexp) (rest : list Regexp) (s out : string),
    op e <> OpConcat -> Sub e = c :: rest -> op c = OpAlternate ->
    writeECMAScriptCompatibleRegexp regexpString c = Ok s ->
    writeECMAScriptCompatibleRegexp regexpString e = Ok out ->
    ~ occurs ("(?:" ++ s ++ ")") out.

(** ** Closed forms of the state of [schemaForString]

    What the rule blocks leave in the base schema and in the appended
    list, written as functions of the rule set. *)

(** The later of two assignments wins. *)
Definition orElse {A : Type} (a b : option A) : option A :=
  match a with
  | Some x => Some x
  | None => b
  end.

(** The format that the well-known rule assigns to the base schema. *)
Definition formatOf (w : option StringRules.isWellKnown)
  : option StringFormat :=
  match w with
  | Some (StringRules.StringRules_Email _) => Some StringFormatEmail
  | Some (StringRules.StringRules_Hostname _) => Some StringFormatHostname
  | Some (StringRules.StringRules_Ipv4 _) => Some StringFormatIPv4
  | Some (StringRules.StringRules_Ipv6 _) => Some StringFormatIPv6
  | Some (StringRules.StringRules_Uri _) => Some StringFormatURI
  | Some (StringRules.StringRules_UriRef _) => Some StringFormatURIReference
  | _ => None
  end.

(** The string schema whose only attribute is the format. *)
Definition formatSchema (format : StringFormat) : Schema :=
  String_ (mkString "" None [] (Some format) None None "" []).

(** The disjunction of formats that the well-known rule appends. *)
Definition wellKnownFragment (w : option StringRules.isWellKnown)
  : list Schema :=
  match w with
  | Some (StringRules.StringRules_Address _) =>
      [AnyOf [formatSchema StringFormatHostname;
              formatSchema StringFormatIPv4;
              formatSchema StringFormatIPv6]]
  | Some (StringRules.StringRules_Ip _) =>
      [AnyOf [formatSchema StringFormatIPv4; formatSchema StringFormatIPv6]]
  | _ => []
  end.

(** The negation of the string schema whose only attribute is the escaped
    NotContains text as Pattern. *)
Definition notContainsFragment (rules : StringRules.t) : list Schema :=
  match StringRules.NotContains rules with
  | Some c => [Not (String_ (mkString "" None [] None None None
                                      (QuoteMeta c) []))]
  | None => []
  end.

(** The negation of the string schema whose only attribute is NotIn as
    Enum. *)
Definition notInFragment (rules : StringRules.t) : list Schema :=
  match StringRules.NotIn rules with
  | [] => []
  | l => [Not (String_ (mkString "" None l None None None "" []))]
  end.

(** The base schema before the patterns are merged. *)
Definition baseSchema (rules : StringRules.t) : StringSchema Schema :=
  mkString ""
    (StringRules.Const rules)
    (StringRules.In rules)
    (formatOf (StringRules.WellKnown rules))
    (orElse (StringRules.MaxLen rules) (StringRules.Len rules))
    (orElse (StringRules.MinLen rules) (StringRules.Len rules))
    ""
    [].

(** The schema of one pattern fragment (lines 198-200). *)
Definition patternSchema (pattern : string) : Schema :=
  String_ (mkString "" None [] None None None pattern []).

(** The outcome of the merge of lines 194-202 on a list of fragments: the
    Pattern of the base schema and the schemas appended for the fragments. *)
Definition mergedPattern (l : list string) : string :=
  match l with
  | [p] => p
  | _ => ""
  end.

Definition mergedSchemas (l : list string) : list Schema :=
  match l with
  | [_] => []
  | _ => map patternSchema l
  end.

(** The base schema after the merge of the fragments [l]. *)
Definition mergedBase (rules : StringRules.t) (l : list string)
  : StringSchema Schema :=
  mkString ""
    (StringRules.Const rules)
    (StringRules.In rules)
    (formatOf (StringRules.WellKnown rules))
    (orElse (StringRules.MaxLen rules) (StringRules.Len rules))
    (orElse (StringRules.MinLen rules) (StringRules.Len rules))
    (mergedPattern l)
    [].

(** What is appended to [schemas] before the patterns are merged. *)
Definition appendedFragments (rules : StringRules.t) : list Schema :=
  (notContainsFragment rules ++ notInFragment rules
   ++ wellKnownFragment (StringRules.WellKnown rules))%list.

(** What one rule block does to the schemas of the state: [g] on the base
    schema, [frag] appended. *)
Definition stepFrame (f : StringState -> StringState)
  (g : StringSchema Schema -> StringSchema Schema) (frag : list Schema)
  : Prop :=
  forall st,
    schema (f st) = g (schema st)
    /\ schemas (f st) = (schemas st ++ frag)%list.

(** The trees on which the rewriter does not index an empty slice: the
    first subexpression of every capture and repetition it reaches exists,
    and so for every subexpression of a concatenation or alternation. *)
Fixpoint renderable (expression : Regexp) : bool :=
  match expression with
  | mkRegexp o sub _ _ _ =>
      match o with
      | OpCapture | OpStar | OpPlus | OpQuest | OpRepeat =>
          match sub with
          | [] => false
          | subexpression :: _ => renderable subexpression
          end
      | OpConcat | OpAlternate =>
          (fix all (l : list Regexp) : bool :=
             match l with
             | [] => true
             | subexpression :: rest => renderable subexpression && all rest
             end) sub
      | _ => true
      end
  end.

(** The inverse of [QuoteMeta]: a backslash is dropped and the byte after
    it kept. *)
Fixpoint unquote (s : string) : string :=
  match s with
  | EmptyString => EmptyString
  | String b rest =>
      if Ascii.eqb b "\" then
        match rest with
        | EmptyString => String b EmptyString
        | String c rest' => String c (unquote rest')
        end
      else String b (unquote rest)
  end.

(** No byte of the text is a metacharacter. *)
Fixpoint plain (s : string) : bool :=
  match s with
  | EmptyString => true
  | String b rest => negb (special b) && plain rest
  end.

(** ** A table of parse results

    A few pattern texts with the trees [syntax.Parse] returns for them and
    the engine's verdict on the empty string; it instantiates the parser and
    the engine where a statement is evaluated on concrete input.  A text
    outside the table counts as unparsable here. *)

Definition literal (runes : list Z) : Regexp := mkRegexp OpLiteral [] runes 0 0.
Definition node (o : Op) (sub : list Regexp) : Regexp := mkRegexp o sub [] 0 0.
Definition repeat_ (min max : Z) (sub : Regexp) : Regexp :=
  mkRegexp OpRepeat [sub] [] min max.

Definition tableString (expression : Regexp) : string :=
  match op expression with
  | OpLiteral =>
      string_of_list_ascii
        (map (fun r => ascii_of_N (Z.to_N r)) (Rune expression))
  | _ => ""
  end.

Definition tableParse (pattern : string) : option Regexp :=
  if (pattern =? "a*")%string then Some (node OpStar [literal [97%Z]])
  else if (pattern =? "^ab+$")%string then
    Some (node OpConcat
            [node OpBeginText []; literal [97%Z];
             node OpPlus [literal [98%Z]]; node OpEndText []])
  else if (pattern =? "(?:ab|cd)*")%string then
    Some (node OpStar [node OpAlternate [literal [97%Z; 98%Z];
                                       literal [99%Z; 100%Z]]])
  else None.

Fixpoint onlyB (s : string) : bool :=
  match s with
  | EmptyString => true
  | String c rest => Ascii.eqb c "b" && onlyB rest
  end.

Definition tableMatchString (pattern s : string) : option bool :=
  if (pattern =? "a*")%string then Some true
  else if (pattern =? "^ab+$")%string then
    match s with
    | String a (String b rest) =>
        Some (Ascii.eqb a "a" && Ascii.eqb b "b" && onlyB rest)
    | _ => Some false
    end
  else if (pattern =? "(?:ab|cd)*")%string then Some true
  else None.

Definition tableNumeric (scalar : ProtoType)
  (constraints : option FieldConstraints.t) : Schema * bool :=
  (AllOf [], false).

(** Inputs on which the statements are evaluated. *)

Definition litAB : Regexp := literal [97%Z; 98%Z].
Definition litCD : Regexp := literal [99%Z; 100%Z].
Definition altABCD : Regexp := node OpAlternate [litAB; litCD].

Definition constraintsConstMinLen : FieldConstraints.t :=
  FieldConstraints.mk true
    (Some (FieldConstraints.FieldConstraints_String
             (StringRules.mk (Some "x") None (Some 3%N) None None None None
                None None None None None [] [] None))).

Definition rulesPrefixSuffix : StringRules.t :=
  StringRules.mk None None None None None None None None (Some "abc")
    (Some "xyz") None None [] [] None.

Definition rulesPrefix : StringRules.t :=
  StringRules.mk None None None None None None None None (Some "abc")
    None None None [] [] None.

Definition bytesRulesMinLen : BytesRules.t :=
  BytesRules.mk [] None (Some 5%N) None None [] [] [] [] [] None.

Definition rulesEmptyContains : StringRules.t :=
  StringRules.mk None None None None None None None None None None (Some "")
    None [] [] None.

Definition constraintsBadBytesPattern : FieldConstraints.t :=
  FieldConstraints.mk false
    (Some (FieldConstraints.FieldConstraints_Bytes
             (BytesRules.mk [] None None None (Some "(") [] [] [] [] []
                            None))).

Definition rulesMixed : StringRules.t :=
  StringRules.mk None (Some 5%N) None (Some 9%N) None None None
    (Some "^ab+$") (Some "a") None None (Some "x") [] ["no"]
    (Some (StringRules.StringRules_Ip true)).

(** The dispatcher over the table. *)
Definition tableScalar :
  ProtoType -> option FieldConstraints.t -> Result (Schema * bool) :=
  schemaForScalar tableString tableParse tableMatchString tableNumeric.

Definition tableForString :
  option StringRules.t -> bool -> Result (Schema * bool) :=
  schemaForString tableString tableParse tableMatchString.

Definition tableCollect : option StringRules.t -> bool -> Result StringState :=
  collectString tableString tableParse tableMatchString.

(** * Properties *)

(** ** Strings *)

Lemma length_append (a b : string) :
  String.length (a ++ b) = (String.length a + String.length b)%nat.
Proof.
  induction a as [|c a IH]; simpl; [reflexivity|].
  now rewrite IH.
Qed.

Lemma append_assoc (a b c : string) : (a ++ b) ++ c = a ++ b ++ c.
Proof.
  induction a as [|x a IH]; simpl; [reflexivity|].
  now rewrite IH.
Qed.

Lemma append_nil_r (a : string) : a ++ "" = a.
Proof.
  induction a as [|x a IH]; simpl; [reflexivity|].
  now rewrite IH.
Qed.

Lemma grouped_differs (s q : string) : ("(?:" ++ s ++ ")") ++ q <> s ++ q.
Proof.
  intro H. apply (f_equal String.length) in H.
  rewrite !length_append in H. simpl in H. lia.
Qed.

(** ** Results *)

Lemma bind_Ok {A B : Type} (r : Result A) (k : A -> Result B) (b : B) :
  bind r k = Ok b -> exists a, r = Ok a /\ k a = Ok b.
Proof.
  destruct r as [a|f]; simpl; intro H; [eauto | discriminate].
Qed.

Lemma succeeds_or_aborts {A : Type} (r : Result A) : succeeds r \/ aborts r.
Proof.
  destruct r as [a|f]; [left | right]; eexists; reflexivity.
Qed.

Lemma aborts_not_succeeds {A : Type} (r : Result A) :
  aborts r <-> ~ succeeds r.
Proof.
  split.
  - intros [f ->] [a H]. discriminate.
  - intro H. destruct r as [a|f]; [exfalso; apply H | ]; eexists; reflexivity.
Qed.

(** ** The rewriter *)

Section RewriterProperties.

Variable regexpString : Regexp -> string.

Local Abbreviation write := (writeECMAScriptCompatibleRegexp regexpString).

Lemma needsGroup_spec (c : Regexp) :
  needsGroup c = true <->
  (code OpCapture < code (op c))%Z
  \/ (op c = OpLiteral /\ (1 < length (Rune c))%nat).
Proof.
  unfold needsGroup, op_eqb.
  rewrite orb_true_iff, andb_true_iff, Z.ltb_lt, Z.eqb_eq, Nat.ltb_lt.
  split; (intros [H|[H1 H2]]; [left; exact H | right; split; [|exact H2]]).
  - destruct (op c); simpl in H1; try discriminate; reflexivity.
  - now rewrite H1.
Qed.

(** One step of the rewriter at a capture. *)
Lemma write_capture (e c : Regexp) (rest : list Regexp) :
  op e = OpCapture -> Sub e = c :: rest ->
  write e = (s <- write c ;; Ok ("(" ++ s ++ ")")).
Proof.
  destruct e as [o sub r mn mx]; simpl; intros -> ->; reflexivity.
Qed.

(** One step of the rewriter at a repetition. *)
Lemma write_quantified (e c : Regexp) (rest : list Regexp) :
  isQuantifier (op e) -> Sub e = c :: rest ->
  write e =
  (s <- write c ;;
   Ok ((if needsGroup c then "(?:" ++ s ++ ")" else s) ++ quantifier e)).
Proof.
  destruct e as [o sub r mn mx]; simpl.
  intros [ -> | [ -> | [ -> | -> ] ] ] ->; reflexivity.
Qed.

Lemma write_concat (e : Regexp) :
  op e = OpConcat ->
  write e =
  (ss <- mapResult (concatItem regexpString) (Sub e) ;;
   Ok (String.concat "" ss)).
Proof.
  destruct e as [o sub r mn mx]; simpl; intros ->.
  induction sub as [|c rest IH]; [reflexivity|].
  simpl. unfold concatItem at 1. fold write.
  destruct (write c) as [s|f]; simpl; [|reflexivity].
  rewrite IH.
  destruct (mapResult (concatItem regexpString) rest) as [ss|f]; simpl;
    [|reflexivity].
  destruct ss as [|t ss]; simpl; [now rewrite append_nil_r | reflexivity].
Qed.

Lemma write_alternate (e : Regexp) :
  op e = OpAlternate ->
  write e = (ss <- mapResult write (Sub e) ;; Ok (String.concat "|" ss)).
Proof.
  destruct e as [o sub r mn mx]; simpl; intros ->.
  destruct sub as [|c rest]; [reflexivity|].
  simpl. destruct (write c) as [s|f]; simpl; [|reflexivity].
  revert s. induction rest as [|d rest IH]; intro s.
  - simpl. now rewrite append_nil_r.
  - simpl. destruct (write d) as [t|f]; simpl; [|reflexivity].
    specialize (IH t).
    match type of IH with
    | bind ?l _ = _ => destruct l as [u|f]
    end; simpl in *.
    + destruct (mapResult write rest) as [ss|f]; simpl in *; [|discriminate].
      injection IH as IH. rewrite IH. reflexivity.
    + destruct (mapResult write rest) as [ss|f']; simpl in *;
        [discriminate | congruence].
Qed.

Lemma mapResult_app {A B : Type} (f : A -> Result B) (l1 l2 : list A)
  (r1 r2 : list B) :
  mapResult f l1 = Ok r1 -> mapResult f l2 = Ok r2 ->
  mapResult f (l1 ++ l2)%list = Ok (r1 ++ r2)%list.
Proof.
  revert r1. induction l1 as [|x l1 IH]; simpl; intros r1 H1 H2.
  - injection H1 as <-. exact H2.
  - destruct (f x) as [y|]; simpl in *; [|discriminate].
    destruct (mapResult f l1) as [ys|]; simpl in *; [|discriminate].
    injection H1 as <-. now rewrite (IH ys eq_refl H2).
Qed.

Lemma alternate_needsGroup (c : Regexp) :
  op c = OpAlternate -> needsGroup c = true.
Proof.
  intro H. apply needsGroup_spec. left. rewrite H. reflexivity.
Qed.

(** C6: at a star, plus, quest or bounded-repeat node whose operand renders
    as [s], the operand is written inside [(?:] [)] if and only if its
    operator ranks above the capture operator or it is a literal of more
    than one rune, and is written bare otherwise; in particular a capture
    and a one-rune literal are written bare.  The quantifier follows. *)
Theorem quantifier_operand_grouping
  (e c : Regexp) (rest : list Regexp) (s : string) :
  isQuantifier (op e) -> Sub e = c :: rest -> write c = Ok s ->
  (write e = Ok (("(?:" ++ s ++ ")") ++ quantifier e) <->
   ((code OpCapture < code (op c))%Z
    \/ (op c = OpLiteral /\ (1 < length (Rune c))%nat)))
  /\ (write e = Ok (s ++ quantifier e) <->
      ~ ((code OpCapture < code (op c))%Z
         \/ (op c = OpLiteral /\ (1 < length (Rune c))%nat)))
  /\ (op c = OpCapture -> write e = Ok (s ++ quantifier e))
  /\ (op c = OpLiteral -> length (Rune c) = 1%nat ->
      write e = Ok (s ++ quantifier e)).
Proof.
  intros Hq Hsub Hc.
  rewrite (write_quantified e c rest Hq Hsub), Hc. simpl.
  pose proof (needsGroup_spec c) as Hspec.
  pose proof (grouped_differs s (quantifier e)) as Hne.
  destruct (needsGroup c) eqn:Hg.
  - assert (Hcond : (code OpCapture < code (op c))%Z
                    \/ (op c = OpLiteral /\ (1 < length (Rune c))%nat))
      by (apply Hspec; reflexivity).
    repeat split.
    + intros _. exact Hcond.
    + intros H. injection H as H. now elim Hne.
    + intros H. now elim H.
    + intro Hop. exfalso. destruct Hcond as [H|[H _]]; rewrite Hop in H;
        [simpl in H; lia | discriminate].
    + intros Hop Hlen. exfalso. destruct Hcond as [H|[_ H]];
        [rewrite Hop in H; simpl in H; lia | lia].
  - assert (Hcond : ~ ((code OpCapture < code (op c))%Z
                       \/ (op c = OpLiteral /\ (1 < length (Rune c))%nat)))
      by (intro H; apply Hspec in H; discriminate).
    repeat split; try reflexivity.
    + intros H. injection H as H. symmetry in H. now elim Hne.
    + intros H. now elim Hcond.
    + intros _. exact Hcond.
Qed.

(** C8: a bounded repeat writes, after its operand, the quantifier [{min}]
    when max equals min, [{min,}] when max differs from min and is
    negative, and [{min,max}] otherwise. *)
Theorem repeat_quantifier_rendering
  (e c : Regexp) (rest : list Regexp) (s : string) :
  op e = OpRepeat -> Sub e = c :: rest -> write c = Ok s ->
  let operand := if needsGroup c then "(?:" ++ s ++ ")" else s in
  (Max e = Min e -> write e = Ok (operand ++ "{" ++ Itoa (Min e) ++ "}"))
  /\ (Max e <> Min e -> (Max e < 0)%Z ->
      write e = Ok (operand ++ "{" ++ Itoa (Min e) ++ ",}"))
  /\ (Max e <> Min e -> (0 <= Max e)%Z ->
      write e =
      Ok (operand ++ "{" ++ Itoa (Min e) ++ "," ++ Itoa (Max e) ++ "}")).
Proof.
  intros Hop Hsub Hc operand.
  assert (Hq : isQuantifier (op e)) by (unfold isQuantifier; tauto).
  rewrite (write_quantified e c rest Hq Hsub), Hc. simpl. fold operand.
  unfold quantifier. rewrite Hop.
  repeat split.
  - intros ->. now rewrite Z.eqb_refl.
  - intros Hne Hneg.
    destruct (Z.eqb_spec (Max e) (Min e)) as [H|_]; [contradiction|].
    destruct (Z.leb_spec 0 (Max e)) as [H|_]; [lia|]. reflexivity.
  - intros Hne Hpos.
    destruct (Z.eqb_spec (Max e) (Min e)) as [H|_]; [contradiction|].
    destruct (Z.leb_spec 0 (Max e)) as [_|H]; [|lia].
    reflexivity.
Qed.

(** C7, as amended: an alternation whose text is [s] is written as
    [(?:s)] when it is a subexpression of a concatenation and also when it
    is the operand of a star, plus, quest or bounded repeat; below a capture
    it is written as [(s)] and below another alternation as [s] itself; and
    [s] is the texts of its own subexpressions joined by [|]. *)
Theorem alternation_child_grouping
  (e c : Regexp) (pre post : list Regexp) (s : string) :
  op c = OpAlternate -> Sub e = (pre ++ c :: post)%list -> write c = Ok s ->
  (op e = OpConcat -> forall tp tq,
     mapResult (concatItem regexpString) pre = Ok tp ->
     mapResult (concatItem regexpString) post = Ok tq ->
     write e = Ok (String.concat "" (List.app tp (("(?:" ++ s ++ ")") :: tq))))
  /\ (isQuantifier (op e) -> pre = [] ->
      write e = Ok (("(?:" ++ s ++ ")") ++ quantifier e))
  /\ (op e = OpCapture -> pre = [] -> write e = Ok ("(" ++ s ++ ")"))
  /\ (op e = OpAlternate -> forall tp tq,
      mapResult write pre = Ok tp -> mapResult write post = Ok tq ->
      write e = Ok (String.concat "|" (List.app tp (s :: tq))))
  /\ (exists ss, mapResult write (Sub c) = Ok ss /\ s = String.concat "|" ss).
Proof.
  intros Hc Hsub Hs.
  repeat split.
  - intros He tp tq Hp Hq.
    rewrite (write_concat e He), Hsub.
    assert (Hitem : concatItem regexpString c = Ok ("(?:" ++ s ++ ")")).
    { unfold concatItem. rewrite Hs. simpl. unfold op_eqb. now rewrite Hc. }
    assert (Hmid : mapResult (concatItem regexpString) (c :: post)
                   = Ok (("(?:" ++ s ++ ")") :: tq)).
    { simpl. rewrite Hitem, Hq. reflexivity. }
    now rewrite (mapResult_app _ _ _ _ _ Hp Hmid).
  - intros He ->. simpl in Hsub.
    rewrite (write_quantified e c post He Hsub), Hs. simpl.
    now rewrite (alternate_needsGroup c Hc).
  - intros He ->. simpl in Hsub.
    now rewrite (write_capture e c post He Hsub), Hs.
  - intros He tp tq Hp Hq.
    rewrite (write_alternate e He), Hsub.
    assert (Hmid : mapResult write (c :: post) = Ok (s :: tq)).
    { simpl. rewrite Hs, Hq. reflexivity. }
    now rewrite (mapResult_app _ _ _ _ _ Hp Hmid).
  - rewrite (write_alternate c Hc) in Hs.
    destruct (mapResult write (Sub c)) as [ss|]; simpl in Hs; [|discriminate].
    injection Hs as <-. now exists ss.
Qed.

End RewriterProperties.

(** *** The rewriter on concrete trees *)

Example Itoa_examples :
  Itoa 0 = "0" /\ Itoa 2 = "2" /\ Itoa 1000 = "1000" /\ Itoa (-1) = "-1".
Proof. repeat split. Qed.

Example QuoteMeta_examples :
  QuoteMeta "" = "" /\ QuoteMeta "abc" = "abc" /\ QuoteMeta "a.b$" = "a\.b\$".
Proof. repeat split. Qed.

Example write_examples :
  writeECMAScriptCompatibleRegexp tableString
    (node OpStar [node OpCapture [litAB]]) = Ok "(ab)*"
  /\ writeECMAScriptCompatibleRegexp tableString
       (node OpPlus [literal [97%Z]]) = Ok "a+"
  /\ writeECMAScriptCompatibleRegexp tableString
       (node OpQuest [node OpAnyChar []]) = Ok "[\s\S]?"
  /\ writeECMAScriptCompatibleRegexp tableString
       (repeat_ 2 5 (node OpConcat [literal [97%Z]; node OpAnyCharNotNL []]))
     = Ok "(?:a.){2,5}"
  /\ writeECMAScriptCompatibleRegexp tableString (node OpCapture [])
     = Abort IndexOutOfRange.
Proof. repeat split. Qed.

Lemma quantifier_operand_grouping_witness :
  isQuantifier (op (node OpStar [litAB]))
  /\ Sub (node OpStar [litAB]) = [litAB]
  /\ writeECMAScriptCompatibleRegexp tableString litAB = Ok "ab"
  /\ writeECMAScriptCompatibleRegexp tableString (node OpStar [litAB])
     = Ok "(?:ab)*".
Proof.
  assert (Hq : isQuantifier (op (node OpStar [litAB]))) by (left; reflexivity).
  split; [exact Hq|]. split; [reflexivity|]. split; [reflexivity|].
  apply (proj1 (quantifier_operand_grouping tableString
                  (node OpStar [litAB]) litAB [] "ab" Hq eq_refl eq_refl)).
  right. split; [reflexivity | simpl; lia].
Defined.

Lemma repeat_quantifier_rendering_witness :
  op (repeat_ 2 (-1) (literal [97%Z])) = OpRepeat
  /\ Sub (repeat_ 2 (-1) (literal [97%Z])) = [literal [97%Z]]
  /\ writeECMAScriptCompatibleRegexp tableString (literal [97%Z]) = Ok "a"
  /\ writeECMAScriptCompatibleRegexp tableString
       (repeat_ 2 (-1) (literal [97%Z])) = Ok "a{2,}".
Proof.
  split; [reflexivity|]. split; [reflexivity|]. split; [reflexivity|].
  apply (proj1 (proj2 (repeat_quantifier_rendering tableString
                         (repeat_ 2 (-1) (literal [97%Z])) (literal [97%Z])
                         [] "a" eq_refl eq_refl eq_refl))); simpl; lia.
Defined.

Lemma alternation_child_grouping_witness :
  op altABCD = OpAlternate
  /\ Sub (node OpConcat [literal [120%Z]; altABCD; literal [121%Z]])
     = ([literal [120%Z]] ++ altABCD :: [literal [121%Z]])%list
  /\ writeECMAScriptCompatibleRegexp tableString altABCD = Ok "ab|cd"
  /\ writeECMAScriptCompatibleRegexp tableString
       (node OpConcat [literal [120%Z]; altABCD; literal [121%Z]])
     = Ok "x(?:ab|cd)y".
Proof.
  split; [reflexivity|]. split; [reflexivity|]. split; [reflexivity|].
  apply (proj1 (alternation_child_grouping tableString
                  (node OpConcat [literal [120%Z]; altABCD; literal [121%Z]])
                  altABCD [literal [120%Z]] [literal [121%Z]] "ab|cd"
                  eq_refl eq_refl eq_refl) eq_refl ["x"] ["y"]);
    reflexivity.
Defined.

(** C7 as stated fails: the alternation under a star is written inside a
    non-capturing group, [(?:ab|cd)*]. *)
Lemma alternation_under_star_is_grouped :
  writeECMAScriptCompatibleRegexp tableString (node OpStar [altABCD])
  = Ok "(?:ab|cd)*"
  /\ ~ alternationBareOutsideConcat tableString.
Proof.
  split; [reflexivity|].
  intro H.
  apply (H (node OpStar [altABCD]) altABCD [] "ab|cd" "(?:ab|cd)*");
    try reflexivity.
  - simpl. discriminate.
  - exists "", "*". reflexivity.
Qed.

(** ** Well-formed trees are rewritten without a panic *)

Lemma Regexp_nested_ind (P : Regexp -> Prop) :
  (forall o sub r mn mx, Forall P sub -> P (mkRegexp o sub r mn mx)) ->
  forall e, P e.
Proof.
  intro H. fix IH 1. intros [o sub r mn mx]. apply H.
  revert sub. fix IHsub 1. intros [|c rest].
  - constructor.
  - constructor; [apply IH | apply IHsub].
Qed.

Lemma wellFormed_children (e : Regexp) :
  wellFormed e = true -> Forall (fun c => wellFormed c = true) (Sub e).
Proof.
  destruct e as [o sub r mn mx]. simpl. intro H.
  apply andb_true_iff in H. destruct H as [_ H].
  induction sub as [|c rest IH]; constructor;
    apply andb_true_iff in H; destruct H as [Hc Hrest]; auto.
Qed.

Lemma wellFormed_operand (e : Regexp) :
  wellFormed e = true -> op e = OpCapture \/ isQuantifier (op e) ->
  exists c, Sub e = [c].
Proof.
  destruct e as [o sub r mn mx]. simpl. intros H Hop.
  apply andb_true_iff in H. destruct H as [H _].
  assert (Hlen : length sub = 1%nat).
  { unfold isQuantifier in Hop.
    destruct Hop as [-> | [ -> | [ -> | [ -> | -> ] ] ] ];
      now apply Nat.eqb_eq in H. }
  destruct sub as [|c [|d rest]]; simpl in Hlen; try discriminate.
  now exists c.
Qed.

Lemma mapResult_succeeds {A B : Type} (f : A -> Result B) (l : list A) :
  Forall (fun x => succeeds (f x)) l -> succeeds (mapResult f l).
Proof.
  induction 1 as [|x l [y Hy] _ [ys Hys]]; simpl.
  - now exists [].
  - rewrite Hy, Hys. simpl. now exists (y :: ys).
Qed.

Lemma write_total (regexpString : Regexp -> string) (e : Regexp) :
  wellFormed e = true ->
  succeeds (writeECMAScriptCompatibleRegexp regexpString e).
Proof.
  induction e as [o sub r mn mx IH] using Regexp_nested_ind. intro Hwf.
  pose proof (wellFormed_children _ Hwf) as Hch. simpl in Hch.
  assert (Hsub : Forall (fun c =>
            succeeds (writeECMAScriptCompatibleRegexp regexpString c)) sub).
  { clear Hwf. induction IH as [|c rest Hc _ IHrest]; constructor;
      inversion Hch; subst; auto. }
  set (e := mkRegexp o sub r mn mx) in *.
  assert (Hunary : op e = OpCapture \/ isQuantifier (op e) ->
                   exists c s, Sub e = [c] /\
                     writeECMAScriptCompatibleRegexp regexpString c = Ok s).
  { intro Hop. destruct (wellFormed_operand e Hwf Hop) as [c Hc].
    subst e. simpl in Hc. subst sub. inversion Hsub as [|? ? [s Hs] _]; subst.
    now exists c, s. }
  assert (Hquant : isQuantifier (op e) ->
                   succeeds (writeECMAScriptCompatibleRegexp regexpString e)).
  { intro Hq. destruct Hunary as [c [s [Hc Hs]]]; [now right|].
    rewrite (write_quantified regexpString e c [] Hq Hc), Hs.
    eexists; reflexivity. }
  destruct o;
    try (eexists; reflexivity);
    try (apply Hquant; unfold isQuantifier; simpl; tauto).
  - destruct Hunary as [c [s [Hc Hs]]]; [now left|].
    rewrite (write_capture regexpString e c [] eq_refl Hc), Hs.
    eexists; reflexivity.
  - rewrite (write_concat regexpString e eq_refl).
    destruct (mapResult_succeeds (concatItem regexpString) sub) as [ss Hss].
    { eapply Forall_impl; [|exact Hsub]. intros c [s Hs].
      unfold concatItem. rewrite Hs. eexists; reflexivity. }
    subst e. simpl. rewrite Hss. eexists; reflexivity.
  - rewrite (write_alternate regexpString e eq_refl).
    destruct (mapResult_succeeds _ sub Hsub) as [ss Hss].
    subst e. simpl. rewrite Hss. eexists; reflexivity.
Qed.

(** ** The rule blocks of the string translator *)

Lemma Forall_isFragment_snoc (l : list Schema) (s : Schema) :
  isFragment s -> Forall isFragment l -> Forall isFragment (l ++ [s])%list.
Proof.
  intros Hs Hl. apply Forall_app. split; [exact Hl | now constructor].
Qed.

Lemma stepSpec_compose (ie : bool) (f g : StringState -> StringState)
  (frag1 frag2 : list string) (trig1 trig2 : bool) :
  stepSpec ie f frag1 trig1 -> stepSpec ie g frag2 trig2 ->
  stepSpec ie (fun st => g (f st)) (frag1 ++ frag2)%list (trig1 || trig2).
Proof.
  intros Hf Hg st.
  destruct (Hf st) as [Hf1 [Hf2 [Hf3 Hf4]]].
  destruct (Hg (f st)) as [Hg1 [Hg2 [Hg3 Hg4]]].
  repeat split.
  - now rewrite Hg1, Hf1, app_assoc.
  - rewrite Hg2, Hf2. now destruct trig1, trig2.
  - now rewrite Hg3.
  - auto.
Qed.

Ltac step_cases :=
  intro st; simpl; rewrite ?app_nil_r;
  repeat split; auto;
  intro; apply Forall_isFragment_snoc; simpl; auto.

Section Steps.

Variable rules : StringRules.t.
Variable ie : bool.

Lemma ruleConst_spec :
  stepSpec ie (ruleConst rules ie) [] (isSome (StringRules.Const rules)).
Proof. unfold ruleConst. destruct (StringRules.Const rules); step_cases. Qed.

Lemma ruleContains_spec :
  stepSpec ie (ruleContains rules ie) (containsFragment rules)
           (isSome (StringRules.Contains rules)).
Proof.
  unfold ruleContains, containsFragment.
  destruct (StringRules.Contains rules); step_cases.
Qed.

Lemma ruleIn_spec :
  stepSpec ie (ruleIn rules ie) [] (nonEmpty (StringRules.In rules)).
Proof.
  unfold ruleIn. destruct (nonEmpty (StringRules.In rules)); step_cases.
Qed.

Lemma ruleLen_spec :
  stepSpec ie (ruleLen rules ie) [] (isSome (StringRules.Len rules)).
Proof. unfold ruleLen. destruct (StringRules.Len rules); step_cases. Qed.

Lemma ruleLenBytes_spec :
  stepSpec ie (ruleLenBytes rules ie) []
           (isSome (StringRules.LenBytes rules)
            || isSome (StringRules.MinBytes rules)).
Proof.
  unfold ruleLenBytes.
  destruct (isSome (StringRules.LenBytes rules)
            || isSome (StringRules.MinBytes rules)); step_cases.
Qed.

Lemma ruleMaxLen_spec : stepSpec ie (ruleMaxLen rules) [] false.
Proof. unfold ruleMaxLen. destruct (StringRules.MaxLen rules); step_cases. Qed.

Lemma ruleMinLen_spec :
  stepSpec ie (ruleMinLen rules ie) [] (isSome (StringRules.MinLen rules)).
Proof. unfold ruleMinLen. destruct (StringRules.MinLen rules); step_cases. Qed.

Lemma ruleNotContains_spec : stepSpec ie (ruleNotContains rules) [] false.
Proof.
  unfold ruleNotContains. destruct (StringRules.NotContains rules); step_cases.
Qed.

Lemma ruleNotIn_spec : stepSpec ie (ruleNotIn rules) [] false.
Proof.
  unfold ruleNotIn. destruct (nonEmpty (StringRules.NotIn rules)); step_cases.
Qed.

Lemma rulePrefix_spec :
  stepSpec ie (rulePrefix rules ie) (prefixFragment rules)
           (isSome (StringRules.Prefix rules)).
Proof.
  unfold rulePrefix, prefixFragment.
  destruct (StringRules.Prefix rules); step_cases.
Qed.

Lemma ruleSuffix_spec :
  stepSpec ie (ruleSuffix rules ie) (suffixFragment rules)
           (isSome (StringRules.Suffix rules)).
Proof.
  unfold ruleSuffix, suffixFragment.
  destruct (StringRules.Suffix rules); step_cases.
Qed.

Lemma ruleWellKnown_spec :
  stepSpec ie (ruleWellKnown rules ie) []
           (isSome (StringRules.WellKnown rules)).
Proof.
  unfold ruleWellKnown.
  destruct (StringRules.WellKnown rules) as [[v|v|v|v|v|v|v|v]|]; step_cases.
Qed.

End Steps.

(** ** The translators *)

Section TranslatorProperties.

Variable regexpString : Regexp -> string.
Variable Parse : string -> option Regexp.
Variable MatchString : string -> string -> option bool.
Variable schemaForNumericScalar :
  ProtoType -> option FieldConstraints.t -> Schema * bool.

Local Abbreviation rewrite_ :=
  (makeRegexpCompatibleWithECMAScript regexpString Parse).
Local Abbreviation probe := (matchesEmptyString MatchString).
Local Abbreviation checks := (patternChecks regexpString Parse MatchString).
Local Abbreviation collected := (collectedPatterns regexpString Parse).
Local Abbreviation implied := (impliesRequired MatchString).
Local Abbreviation collect := (collectString regexpString Parse MatchString).
Local Abbreviation forString :=
  (schemaForString regexpString Parse MatchString).
Local Abbreviation forScalar :=
  (schemaForScalar regexpString Parse MatchString schemaForNumericScalar).

Lemma rulePattern_spec (rules : StringRules.t) (ie : bool) (st : StringState) :
  (checks (Some rules) ->
   exists st',
     rulePattern regexpString Parse MatchString rules ie st = Ok st'
     /\ patterns st' = (patterns st ++ patternFragment regexpString Parse rules)%list
     /\ required st'
        = (if patternRequires MatchString rules then negb ie else required st)
     /\ schema st' = schema st
     /\ schemas st' = schemas st)
  /\ (~ checks (Some rules) ->
      aborts (rulePattern regexpString Parse MatchString rules ie st)).
Proof.
  unfold patternChecks, rulePattern, patternFragment, patternRequires.
  destruct (StringRules.Pattern rules) as [p|].
  - destruct (rewrite_ p) as [t|f]; simpl.
    + destruct (probe p) as [m|f]; simpl.
      * split; [|intro H; elim H; split; eexists; reflexivity].
        intros _. eexists. split; [reflexivity|].
        destruct m; simpl; auto.
      * split; [intros [_ [m H]]; discriminate|].
        intros _. eexists; reflexivity.
    + split; [intros [[t H] _]; discriminate|].
      intros _. eexists; reflexivity.
  - split; [|intro H; now elim H].
    intros _. exists st. rewrite app_nil_r. auto.
Qed.

Lemma beforePattern_spec (rules : StringRules.t) (ie : bool) :
  stepSpec ie
    (fun st =>
       ruleNotIn rules
         (ruleNotContains rules
            (ruleMinLen rules ie
               (ruleMaxLen rules
                  (ruleLenBytes rules ie
                     (ruleLen rules ie
                        (ruleIn rules ie
                           (ruleContains rules ie
                              (ruleConst rules ie st)))))))))
    (containsFragment rules)
    (isSome (StringRules.Const rules)
     || isSome (StringRules.Contains rules)
     || nonEmpty (StringRules.In rules)
     || isSome (StringRules.Len rules)
     || (isSome (StringRules.LenBytes rules)
         || isSome (StringRules.MinBytes rules))
     || isSome (StringRules.MinLen rules)).
Proof.
  pose proof
    (stepSpec_compose ie _ _ _ _ _ _
       (stepSpec_compose ie _ _ _ _ _ _
          (stepSpec_compose ie _ _ _ _ _ _
             (stepSpec_compose ie _ _ _ _ _ _
                (stepSpec_compose ie _ _ _ _ _ _
                   (stepSpec_compose ie _ _ _ _ _ _
                      (stepSpec_compose ie _ _ _ _ _ _
                         (stepSpec_compose ie _ _ _ _ _ _
                            (ruleConst_spec rules ie)
                            (ruleContains_spec rules ie))
                         (ruleIn_spec rules ie))
                      (ruleLen_spec rules ie))
                   (ruleLenBytes_spec rules ie))
                (ruleMaxLen_spec rules ie))
             (ruleMinLen_spec rules ie))
          (ruleNotContains_spec rules ie))
       (ruleNotIn_spec rules ie)) as H.
  simpl in H. rewrite ?app_nil_r, ?orb_false_r in H. exact H.
Qed.

Lemma afterPattern_spec (rules : StringRules.t) (ie : bool) :
  stepSpec ie
    (fun st => ruleWellKnown rules ie (ruleSuffix rules ie
                                         (rulePrefix rules ie st)))
    (prefixFragment rules ++ suffixFragment rules)%list
    (isSome (StringRules.Prefix rules)
     || isSome (StringRules.Suffix rules)
     || isSome (StringRules.WellKnown rules)).
Proof.
  pose proof
    (stepSpec_compose ie _ _ _ _ _ _
       (stepSpec_compose ie _ _ _ _ _ _
          (rulePrefix_spec rules ie) (ruleSuffix_spec rules ie))
       (ruleWellKnown_spec rules ie)) as H.
  rewrite ?app_nil_r in H. exact H.
Qed.

(** The whole pass over a rule set: it ends the run exactly when the
    Pattern rule does; otherwise it appends [collectedPatterns] and assigns
    [required] exactly when [impliesRequired] holds. *)
Lemma applyRules_spec (rules : StringRules.t) (ie : bool) (st : StringState) :
  (checks (Some rules) ->
   exists st',
     applyRules regexpString Parse MatchString rules ie st = Ok st'
     /\ patterns st' = (patterns st ++ collected rules)%list
     /\ required st' = (if implied rules then negb ie else required st)
     /\ Pattern (schema st') = Pattern (schema st)
     /\ (Forall isFragment (schemas st) -> Forall isFragment (schemas st')))
  /\ (~ checks (Some rules) ->
      aborts (applyRules regexpString Parse MatchString rules ie st)).
Proof.
  unfold applyRules.
  set (before := ruleNotIn rules _).
  destruct (beforePattern_spec rules ie st) as [B1 [B2 [B3 B4]]].
  fold before in B1, B2, B3, B4.
  destruct (rulePattern_spec rules ie before) as [Hok Hfail].
  split.
  - intro Hc. destruct (Hok Hc) as [mid [Hmid [P1 [P2 [P3 P4]]]]].
    rewrite Hmid. simpl.
    destruct (afterPattern_spec rules ie mid) as [A1 [A2 [A3 A4]]].
    eexists. split; [reflexivity|].
    repeat split.
    + rewrite A1, P1, B1. unfold collectedPatterns.
      now rewrite <- !app_assoc.
    + rewrite A2, P2, B2. unfold impliesRequired.
      rewrite <- !orb_assoc.
      repeat match goal with
             | |- context [if ?b || _ then _ else _] => destruct b; simpl
             end; try reflexivity;
        repeat match goal with
               | |- context [if ?b then _ else _] => destruct b; simpl
               end; reflexivity.
    + now rewrite A3, P3.
    + intro H. apply A4. rewrite P4. auto.
  - intro Hc. destruct (Hfail Hc) as [f Hf]. rewrite Hf. simpl.
    eexists; reflexivity.
Qed.

Lemma collectString_spec (rules : option StringRules.t) (ie : bool) :
  (checks rules ->
   exists st,
     collect rules ie = Ok st
     /\ patterns st = match rules with Some r => collected r | None => [] end
     /\ required st
        = match rules with Some r => implied r && negb ie | None => false end
     /\ Pattern (schema st) = ""
     /\ Forall isFragment (schemas st))
  /\ (~ checks rules -> aborts (collect rules ie)).
Proof.
  unfold collectString. destruct rules as [r|].
  - destruct (applyRules_spec r ie (mkState NewStringSchema [] [] false))
      as [Hok Hfail].
    split; [|exact Hfail].
    intro Hc. destruct (Hok Hc) as [st [H [H1 [H2 [H3 H4]]]]].
    exists st. simpl in *. repeat split; auto;
      try (rewrite H2; now destruct (implied r)).
  - split; [|intro H; now elim H].
    intros _. eexists. repeat split. constructor.
Qed.

Lemma mergePatterns_many (l : list string) (st : StringState) :
  fold_left
    (fun st pattern =>
       appendSchema (String_ (setPattern pattern NewStringSchema)) st) l st
  = mkState (schema st)
      (schemas st
       ++ map (fun p => String_ (setPattern p NewStringSchema)) l)%list
      (patterns st) (required st).
Proof.
  revert st. induction l as [|p l IH]; intro st; simpl.
  - rewrite app_nil_r. now destruct st.
  - rewrite IH. simpl. now rewrite <- app_assoc.
Qed.

Lemma schemaForString_spec (rules : option StringRules.t) (ie : bool) :
  (checks rules ->
   exists s,
     forString rules ie
     = Ok (s, match rules with
              | Some r => implied r && negb ie
              | None => false
              end))
  /\ (~ checks rules -> aborts (forString rules ie)).
Proof.
  unfold schemaForString.
  destruct (collectString_spec rules ie) as [Hok Hfail]. split.
  - intro Hc. destruct (Hok Hc) as [st [H [_ [H2 _]]]]. rewrite H. simpl.
    eexists. f_equal. f_equal. rewrite <- H2.
    unfold mergePatterns. destruct (patterns st) as [|p [|q l]];
      try reflexivity.
    now rewrite mergePatterns_many.
  - intro Hc. destruct (Hfail Hc) as [f Hf]. rewrite Hf.
    eexists; reflexivity.
Qed.

(** C2, as amended: whatever the rules and the ignore-empty flag, the bytes
    translator returns one and the same schema: a string-typed node whose
    [OneOf] attribute (exactly one of) lists exactly two string-typed
    schemas, the first with the pattern [^[\r\nA-Za-z0-9+/]*$] and the
    second with the pattern [^[\r\nA-Za-z0-9_-]*$]; it is not an [AnyOf]
    (inclusive disjunction) of them, and no [AnyOf] occurs in it. *)
Theorem bytes_schema_shape (rules : option BytesRules.t) (ignoreEmpty : bool) :
  fst (schemaForBytes rules ignoreEmpty)
  = String_
      (mkString "" None [] None None None ""
         [String_ (mkString "Standard base64 encoding" None [] None None None
                            "^[\r\nA-Za-z0-9+/]*$" []);
          String_ (mkString "URL-safe base64 encoding" None [] None None None
                            "^[\r\nA-Za-z0-9_-]*$" [])])
  /\ (forall l, fst (schemaForBytes rules ignoreEmpty) <> AnyOf l).
Proof. split; [reflexivity | discriminate]. Qed.

Lemma nonEmpty_true {A : Type} (l : list A) : nonEmpty l = true <-> l <> [].
Proof.
  destruct l; simpl; split; try discriminate; try reflexivity.
  intro H. now elim H.
Qed.

Lemma isSome_true {A : Type} (o : option A) : isSome o = true <-> o <> None.
Proof.
  destruct o; simpl; split; try discriminate; try reflexivity.
  intro H. now elim H.
Qed.

(** C5: the bytes translator returns required = true if and only if the
    ignore-empty flag is false and the rule set has a non-empty Const, a
    non-empty Contains, a non-empty In, a MinLen, a Pattern, a non-empty
    Prefix, a non-empty Suffix or a well-known format; a rule set with only
    the length rules Len and MaxLen (and NotIn) never gives required. *)
Theorem bytes_required_iff (rules : option BytesRules.t) (ignoreEmpty : bool) :
  (snd (schemaForBytes rules ignoreEmpty) = true <->
   ignoreEmpty = false
   /\ exists r, rules = Some r
      /\ (BytesRules.Const r <> []
          \/ BytesRules.Contains r <> []
          \/ BytesRules.In r <> []
          \/ BytesRules.MinLen r <> None
          \/ BytesRules.Pattern r <> None
          \/ BytesRules.Prefix r <> []
          \/ BytesRules.Suffix r <> []
          \/ BytesRules.WellKnown r <> None))
  /\ (forall len maxLen notIn,
        snd (schemaForBytes
               (Some (BytesRules.mk [] len None maxLen None [] [] [] []
                                    notIn None)) ignoreEmpty) = false).
Proof.
  split; [|intros; simpl; apply andb_false_r].
  destruct rules as [r|]; simpl.
  - rewrite andb_true_iff, negb_true_iff, !orb_true_iff,
      !nonEmpty_true, !isSome_true.
    split.
    + intros [Hie H]. split; [exact Hie|]. exists r. split; [reflexivity|].
      tauto.
    + intros [Hie [r' [Hr H]]]. injection Hr as <-. tauto.
  - split; [discriminate|]. intros [_ [r [H _]]]. discriminate.
Qed.

Lemma probe_succeeds_iff (p : string) :
  succeeds (probe p) <-> MatchString p "" <> None.
Proof.
  unfold matchesEmptyString. destruct (MatchString p "") as [m|]; split.
  - discriminate.
  - intros _. eexists; reflexivity.
  - intros [m H]. discriminate.
  - intro H. now elim H.
Qed.

Lemma rewrite_succeeds_iff (p : string) :
  (forall q e, Parse q = Some e -> wellFormed e = true) ->
  succeeds (rewrite_ p) <-> Parse p <> None.
Proof.
  intro Hwf. unfold makeRegexpCompatibleWithECMAScript.
  destruct (Parse p) as [e|] eqn:He; split.
  - discriminate.
  - intros _. apply write_total. now apply (Hwf p).
  - intros [t H]. discriminate.
  - intro H. now elim H.
Qed.

(** C3: when the sole rule is Pattern = p and the probe reports that p
    matches the empty string, the string translator returns required =
    false for every value of the ignore-empty flag; the schema carries the
    rewritten pattern.  The parser returns well-formed trees and
    [regexp.MatchString] compiles its pattern with that parser. *)
Theorem pattern_matching_empty_not_required (p : string) (ignoreEmpty : bool) :
  (forall q e, Parse q = Some e -> wellFormed e = true) ->
  (forall q s, MatchString q s <> None -> Parse q <> None) ->
  probe p = Ok true ->
  exists t,
    rewrite_ p = Ok t
    /\ forString (Some (StringRules.onlyPattern p)) ignoreEmpty
       = Ok (AllOf [String_ (setPattern t NewStringSchema)], false).
Proof.
  intros Hwf Hcompiles Hprobe.
  assert (Hparse : Parse p <> None).
  { apply (Hcompiles p ""). apply probe_succeeds_iff. now exists true. }
  apply (rewrite_succeeds_iff p Hwf) in Hparse. destruct Hparse as [t Ht].
  exists t. split; [exact Ht|].
  unfold schemaForString, collectString, applyRules, rulePattern.
  simpl. rewrite Ht. simpl. rewrite Hprobe. reflexivity.
Qed.

(** C4: when the rule pass has collected exactly one pattern fragment [p],
    the base schema of the result has Pattern = [p] and its other attributes
    as the rule blocks left them; when it has collected more than one, the
    base schema keeps its empty Pattern and each fragment becomes a
    string-typed schema whose only attribute is that pattern, appended after
    the base schema and the negation and format fragments; in both cases
    the result is the conjunction of the whole list.  The collected
    fragments are those of Contains, Pattern, Prefix and Suffix, in this
    order; before the merge the base schema has no Pattern. *)
Theorem pattern_merge_policy
  (rules : option StringRules.t) (ignoreEmpty : bool) (st : StringState) :
  collect rules ignoreEmpty = Ok st ->
  (forall p, patterns st = [p] ->
     exists base,
       forString rules ignoreEmpty
       = Ok (AllOf (String_ base :: schemas st), required st)
       /\ Pattern base = p
       /\ Title base = Title (schema st)
       /\ Const base = Const (schema st)
       /\ Enum base = Enum (schema st)
       /\ Format base = Format (schema st)
       /\ MaxLength base = MaxLength (schema st)
       /\ MinLength base = MinLength (schema st)
       /\ OneOf base = OneOf (schema st))
  /\ ((1 < length (patterns st))%nat ->
      forString rules ignoreEmpty
      = Ok (AllOf (String_ (schema st)
                   :: (schemas st
                       ++ map (fun p =>
                                 String_ (mkString "" None [] None None None
                                                   p []))
                              (patterns st))%list),
            required st))
  /\ Pattern (schema st) = ""
  /\ Forall isFragment (schemas st)
  /\ patterns st = match rules with Some r => collected r | None => [] end.
Proof.
  intro Hst.
  destruct (collectString_spec rules ignoreEmpty) as [Hok Hfail].
  assert (Hc : checks rules).
  { destruct rules as [r|]; [|exact I]. simpl.
    destruct (StringRules.Pattern r) as [q|] eqn:Hq; [|exact I].
    destruct (succeeds_or_aborts (rewrite_ q)) as [H1|H1];
      destruct (succeeds_or_aborts (probe q)) as [H2|H2];
      try (split; assumption);
      exfalso;
      (assert (Hn : ~ checks (Some r))
        by (simpl; rewrite Hq; intros [G1 G2];
            first [ now apply aborts_not_succeeds in H1
                  | now apply aborts_not_succeeds in H2 ]));
      destruct (Hfail Hn) as [f Hf]; congruence. }
  destruct (Hok Hc) as [st' [H [H1 [_ [H3 H4]]]]].
  assert (st' = st) by congruence. subst st'.
  unfold schemaForString. rewrite Hst. simpl. unfold mergePatterns.
  split; [|split; [|split; [exact H3|split; [exact H4|exact H1]]]].
  - intros p Hp. rewrite Hp. eexists. split; [reflexivity|].
    repeat split.
  - intro Hlen. destruct (patterns st) as [|p [|q l]] eqn:Hp;
      simpl in Hlen; try lia.
    now rewrite mergePatterns_many.
Qed.

(** C10: in the string translator the presence of Contains, Prefix or
    Suffix alone triggers the rule, also when its value is the empty
    string: the fragment (the escaped text, [^] + escaped text, escaped
    text + [$]; for the empty string these are the empty pattern, [^] and
    [$]) is collected and required becomes the negation of the ignore-empty
    flag.  The bytes translator tests the length instead: with Contains,
    Prefix and Suffix as the only rules, required holds only if one of them
    is non-empty. *)
Theorem string_rules_trigger_on_presence
  (rules : StringRules.t) (ignoreEmpty : bool) :
  checks (Some rules) ->
  (exists st s,
     collect (Some rules) ignoreEmpty = Ok st
     /\ forString (Some rules) ignoreEmpty = Ok (s, required st)
     /\ (forall c, StringRules.Contains rules = Some c ->
           In (QuoteMeta c) (patterns st) /\ required st = negb ignoreEmpty)
     /\ (forall c, StringRules.Prefix rules = Some c ->
           In ("^" ++ QuoteMeta c) (patterns st)
           /\ required st = negb ignoreEmpty)
     /\ (forall c, StringRules.Suffix rules = Some c ->
           In (QuoteMeta c ++ "$") (patterns st)
           /\ required st = negb ignoreEmpty))
  /\ QuoteMeta "" = "" /\ "^" ++ QuoteMeta "" = "^" /\ QuoteMeta "" ++ "$" = "$"
  /\ (forall contains prefix suffix,
        snd (schemaForBytes
               (Some (BytesRules.mk [] None None None None prefix suffix
                                    contains [] [] None)) ignoreEmpty)
        = negb ignoreEmpty
          && (nonEmpty contains || nonEmpty prefix || nonEmpty suffix)).
Proof.
  intro Hc. split; [|repeat split].
  - destruct (collectString_spec (Some rules) ignoreEmpty) as [Hok _].
    destruct (Hok Hc) as [st [Hst [H1 [H2 _]]]].
    destruct (schemaForString_spec (Some rules) ignoreEmpty) as [Hs _].
    destruct (Hs Hc) as [s Hs'].
    exists st, s. rewrite <- H2 in Hs'.
    split; [exact Hst|]. split; [exact Hs'|].
    rewrite H1, H2. unfold collectedPatterns, impliesRequired,
      containsFragment, prefixFragment, suffixFragment.
    split; [|split]; intros c Heq; rewrite Heq; simpl;
      rewrite ?in_app_iff; simpl; rewrite ?orb_true_r; auto 10.
  - intros contains prefix suffix. simpl.
    f_equal. destruct (nonEmpty contains), (nonEmpty prefix),
      (nonEmpty suffix); reflexivity.
Qed.

Lemma checks_fail_iff (rules : option StringRules.t) :
  (forall q e, Parse q = Some e -> wellFormed e = true) ->
  ~ checks rules <->
  exists r p, rules = Some r /\ StringRules.Pattern r = Some p
              /\ (Parse p = None \/ MatchString p "" = None).
Proof.
  intro Hwf. unfold patternChecks. split.
  - destruct rules as [r|]; [|intro H; now elim H].
    destruct (StringRules.Pattern r) as [p|] eqn:Hp; [|intro H; now elim H].
    rewrite (rewrite_succeeds_iff p Hwf), probe_succeeds_iff.
    intro H. exists r, p. split; [reflexivity|]. split; [exact Hp|].
    destruct (Parse p); [|now left].
    destruct (MatchString p ""); [|now right].
    elim H. split; discriminate.
  - intros [r [p [-> [Hp H]]]]. rewrite Hp.
    rewrite (rewrite_succeeds_iff p Hwf), probe_succeeds_iff.
    intros [H1 H2]. destruct H; contradiction.
Qed.

Lemma forScalar_string (c : option FieldConstraints.t) :
  forScalar StringT c
  = forString (FieldConstraints.GetString_ c)
      match c with
      | Some c0 => FieldConstraints.IgnoreEmpty c0
      | None => false
      end.
Proof. reflexivity. Qed.

Lemma forScalar_bytes (c : option FieldConstraints.t) :
  forScalar BytesT c
  = Ok (schemaForBytes (FieldConstraints.GetBytes c)
          match c with
          | Some c0 => FieldConstraints.IgnoreEmpty c0
          | None => false
          end).
Proof. reflexivity. Qed.

Lemma forScalar_bool (c : option FieldConstraints.t) :
  forScalar BoolT c = Ok (schemaForBool (FieldConstraints.GetBool c)).
Proof. reflexivity. Qed.

(** C1, as amended: when the ignore-empty flag of the constraints is true,
    the bytes translator and the string translator return required = false
    whatever rules are present (the string translator returns unless its
    Pattern rule ends the run); the boolean translator is not given the flag
    and returns required = true exactly when a Const rule is present. *)
Theorem ignore_empty_suppresses_required (c : FieldConstraints.t) :
  FieldConstraints.IgnoreEmpty c = true ->
  (exists s, forScalar BytesT (Some c) = Ok (s, false))
  /\ (checks (FieldConstraints.GetString_ (Some c)) ->
      exists s, forScalar StringT (Some c) = Ok (s, false))
  /\ (forall s req, forScalar StringT (Some c) = Ok (s, req) -> req = false)
  /\ (exists s,
        forScalar BoolT (Some c)
        = Ok (s, match FieldConstraints.GetBool (Some c) with
                 | Some r => isSome (BoolRules.Const r)
                 | None => false
                 end)).
Proof.
  intro Hie.
  assert (Hstr : checks (FieldConstraints.GetString_ (Some c)) ->
                 exists s, forScalar StringT (Some c) = Ok (s, false)).
  { intro Hc. rewrite forScalar_string, Hie.
    destruct (schemaForString_spec (FieldConstraints.GetString_ (Some c)) true)
      as [Hok _].
    destruct (Hok Hc) as [s Hs]. exists s. rewrite Hs. f_equal. f_equal.
    destruct (FieldConstraints.GetString_ (Some c)); [|reflexivity].
    apply andb_false_r. }
  split; [|split; [exact Hstr|split]].
  - rewrite forScalar_bytes, Hie. eexists. f_equal.
    unfold schemaForBytes. f_equal.
    destruct (FieldConstraints.GetBytes (Some c)); reflexivity.
  - intros s req Hs.
    destruct (succeeds_or_aborts
                (forScalar StringT (Some c))) as [_|[f Hf]]; [|congruence].
    assert (Hc : checks (FieldConstraints.GetString_ (Some c))).
    { destruct (FieldConstraints.GetString_ (Some c)) as [r|] eqn:Hr;
        [|exact I].
      simpl. destruct (StringRules.Pattern r) as [p|] eqn:Hp; [|exact I].
      destruct (schemaForString_spec (Some r) true) as [_ Hfail].
      destruct (succeeds_or_aborts (rewrite_ p)) as [H1|H1];
        destruct (succeeds_or_aborts (probe p)) as [H2|H2];
        try (split; assumption);
        exfalso;
        (assert (Hn : ~ checks (Some r))
          by (simpl; rewrite Hp; intros [G1 G2];
              first [ now apply aborts_not_succeeds in H1
                    | now apply aborts_not_succeeds in H2 ]));
        destruct (Hfail Hn) as [f Hf];
        rewrite forScalar_string, Hie, Hr in Hs; congruence. }
    destruct (Hstr Hc) as [s' Hs']. congruence.
  - rewrite forScalar_bool. unfold schemaForBool.
    destruct (FieldConstraints.GetBool (Some c)) as [[[b|]]|];
      eexists; reflexivity.
Qed.

(** C9, as amended: the dispatcher ends the run exactly when the kind is
    not numeric and none of Bool, Bytes, String, or when the kind is String
    and the string rule set has a Pattern rule whose text the parser rejects
    or on which the empty-match probe errors; on every other input it
    returns a schema and a required flag.  The parser returns well-formed
    trees. *)
Theorem scalar_failure_conditions
  (kind : ProtoType) (c : option FieldConstraints.t) :
  (forall q e, Parse q = Some e -> wellFormed e = true) ->
  let unexpected :=
    IsNumeric kind = false
    /\ kind <> BoolT /\ kind <> BytesT /\ kind <> StringT in
  let badPattern :=
    kind = StringT
    /\ exists r p, FieldConstraints.GetString_ c = Some r
                   /\ StringRules.Pattern r = Some p
                   /\ (Parse p = None \/ MatchString p "" = None) in
  (aborts (forScalar kind c) <-> unexpected \/ badPattern)
  /\ (succeeds (forScalar kind c) <-> ~ (unexpected \/ badPattern)).
Proof.
  intros Hwf unexpected badPattern.
  assert (Habort : aborts (forScalar kind c) <-> unexpected \/ badPattern).
  { subst unexpected badPattern.
    destruct kind;
      try rewrite forScalar_string;
      try (unfold schemaForScalar; simpl; split;
           [ intros [f Hf]; discriminate
           | intros [[H1 [H2 [H3 H4]]]|[H _]];
             congruence ]);
      try (unfold schemaForScalar; simpl; split;
           [ intros _; left; repeat split; discriminate
           | intros _; eexists; reflexivity ]).
    set (ie := match c with
               | Some c0 => FieldConstraints.IgnoreEmpty c0
               | None => false
               end).
    destruct (schemaForString_spec (FieldConstraints.GetString_ c) ie)
      as [Hok Hfail].
    pose proof (checks_fail_iff (FieldConstraints.GetString_ c) Hwf) as Hiff.
    split.
    - intro Ha. right. split; [reflexivity|].
      assert (Hn : ~ checks (FieldConstraints.GetString_ c)).
      { intro Hc. destruct (Hok Hc) as [s Hs]. destruct Ha as [f Hf].
        congruence. }
      apply Hiff in Hn. destruct Hn as [r [p [Hr H]]]. now exists r, p.
    - intros [[_ [_ [_ H]]]|[_ [r [p [Hr H]]]]]; [now elim H|].
      apply Hfail. apply Hiff. now exists r, p. }
  split; [exact Habort|].
  rewrite <- Habort. split.
  - intros Hs Ha. now apply aborts_not_succeeds in Ha.
  - intro Hn. destruct (succeeds_or_aborts (forScalar kind c)) as [H|H];
      [exact H | contradiction].
Qed.

End TranslatorProperties.

(** ** The translators on concrete input *)

Lemma tableParse_wellFormed (q : string) (e : Regexp) :
  tableParse q = Some e -> wellFormed e = true.
Proof.
  unfold tableParse.
  destruct (q =? "a*")%string; [intro H; injection H as <-; reflexivity|].
  destruct (q =? "^ab+$")%string; [intro H; injection H as <-; reflexivity|].
  destruct (q =? "(?:ab|cd)*")%string;
    [intro H; injection H as <-; reflexivity|].
  discriminate.
Qed.

Lemma tableMatchString_compiles (q s : string) :
  tableMatchString q s <> None -> tableParse q <> None.
Proof.
  unfold tableMatchString, tableParse.
  destruct (q =? "a*")%string; [discriminate|].
  destruct (q =? "^ab+$")%string; [discriminate|].
  destruct (q =? "(?:ab|cd)*")%string; [discriminate|].
  intro H. now elim H.
Qed.

(** Scenarios 1 and 2 of the specification. *)
Example bool_scenarios :
  schemaForBool (Some (BoolRules.mk (Some true))) = (Boolean (Some true), true)
  /\ schemaForBool None = (Boolean None, false).
Proof. split; reflexivity. Qed.

(** Scenario 5 of the specification. *)
Example address_scenario :
  tableForString
    (Some (StringRules.mk None None None None None None None None None None
             None None [] [] (Some (StringRules.StringRules_Address true))))
    false
  = Ok (AllOf
          [String_ NewStringSchema;
           AnyOf
             [String_ (setFormat (Some StringFormatHostname) NewStringSchema);
              String_ (setFormat (Some StringFormatIPv4) NewStringSchema);
              String_ (setFormat (Some StringFormatIPv6) NewStringSchema)]],
        true).
Proof. reflexivity. Qed.

(** A pattern that does not match the empty string gives required. *)
Example pattern_scenario :
  tableForString (Some (StringRules.onlyPattern "^ab+$")) false
  = Ok (AllOf [String_ (setPattern "^ab+$" NewStringSchema)], true)
  /\ tableForString (Some (StringRules.onlyPattern "(")) false
     = Abort FailedToParseRegularExpression.
Proof. split; reflexivity. Qed.

(** C2 as stated fails: for the rule set of scenario 4 the two base64
    schemas are listed under [OneOf] of a string node, and the result is not
    the disjunction [AnyOf] of two string schemas. *)
Lemma bytes_schema_is_not_a_disjunction :
  schemaForBytes (Some bytesRulesMinLen) false
  = (String_
       (mkString "" None [] None None None ""
          [String_ (mkString "Standard base64 encoding" None [] None None
                             None "^[\r\nA-Za-z0-9+/]*$" []);
           String_ (mkString "URL-safe base64 encoding" None [] None None
                             None "^[\r\nA-Za-z0-9_-]*$" [])]),
     true)
  /\ ~ (exists a b,
          fst (schemaForBytes (Some bytesRulesMinLen) false)
          = AnyOf [String_ a; String_ b]
          /\ Pattern a = "^[\r\nA-Za-z0-9+/]*$"
          /\ Pattern b = "^[\r\nA-Za-z0-9_-]*$").
Proof.
  split; [reflexivity|].
  intros [a [b [H _]]]. discriminate.
Qed.

(** C1 as stated fails for the boolean translator: with the ignore-empty
    flag set and a Const rule present, required is true. *)
Lemma bool_const_required_despite_ignore_empty :
  tableScalar BoolT
    (Some (FieldConstraints.mk true
             (Some (FieldConstraints.FieldConstraints_Bool
                      (BoolRules.mk (Some true))))))
  = Ok (Boolean (Some true), true)
  /\ ~ (forall kind c s req,
          kind = BoolT \/ kind = BytesT \/ kind = StringT ->
          FieldConstraints.IgnoreEmpty c = true ->
          tableScalar kind (Some c) = Ok (s, req) -> req = false).
Proof.
  split; [reflexivity|].
  intro H.
  specialize (H BoolT
                (FieldConstraints.mk true
                   (Some (FieldConstraints.FieldConstraints_Bool
                            (BoolRules.mk (Some true)))))
                (Boolean (Some true)) true
                (or_introl eq_refl) eq_refl eq_refl).
  discriminate.
Qed.

Lemma ignore_empty_suppresses_required_witness :
  FieldConstraints.IgnoreEmpty constraintsConstMinLen = true
  /\ (exists s, tableScalar BytesT (Some constraintsConstMinLen)
                = Ok (s, false))
  /\ (exists s, tableScalar StringT (Some constraintsConstMinLen)
                = Ok (s, false)).
Proof.
  split; [reflexivity|].
  destruct (ignore_empty_suppresses_required tableString tableParse
              tableMatchString tableNumeric constraintsConstMinLen eq_refl)
    as [Hbytes [Hstring _]].
  split; [exact Hbytes | exact (Hstring I)].
Defined.

Lemma pattern_matching_empty_not_required_witness :
  (forall q e, tableParse q = Some e -> wellFormed e = true)
  /\ (forall q s, tableMatchString q s <> None -> tableParse q <> None)
  /\ matchesEmptyString tableMatchString "a*" = Ok true
  /\ exists t,
       makeRegexpCompatibleWithECMAScript tableString tableParse "a*" = Ok t
       /\ tableForString (Some (StringRules.onlyPattern "a*")) false
          = Ok (AllOf [String_ (setPattern t NewStringSchema)], false).
Proof.
  split; [exact tableParse_wellFormed|].
  split; [exact tableMatchString_compiles|].
  split; [reflexivity|].
  exact (pattern_matching_empty_not_required tableString tableParse
           tableMatchString "a*" false tableParse_wellFormed
           tableMatchString_compiles eq_refl).
Defined.

(** Scenario 3 of the specification, and the case of a single fragment. *)
Lemma pattern_merge_policy_witness :
  tableCollect (Some rulesPrefixSuffix) false
  = Ok (mkState NewStringSchema [] ["^abc"; "xyz$"] true)
  /\ tableForString (Some rulesPrefixSuffix) false
     = Ok (AllOf
             [String_ (mkString "" None [] None None None "" []);
              String_ (mkString "" None [] None None None "^abc" []);
              String_ (mkString "" None [] None None None "xyz$" [])], true)
  /\ tableCollect (Some rulesPrefix) false
     = Ok (mkState NewStringSchema [] ["^abc"] true)
  /\ exists base,
       tableForString (Some rulesPrefix) false = Ok (AllOf [String_ base], true)
       /\ Pattern base = "^abc".
Proof.
  split; [reflexivity|]. split; [|split; [reflexivity|]].
  - apply (proj1 (proj2 (pattern_merge_policy tableString tableParse
                           tableMatchString (Some rulesPrefixSuffix) false
                           (mkState NewStringSchema [] ["^abc"; "xyz$"] true)
                           eq_refl))).
    simpl. lia.
  - destruct (proj1 (pattern_merge_policy tableString tableParse
                       tableMatchString (Some rulesPrefix) false
                       (mkState NewStringSchema [] ["^abc"] true)
                       eq_refl) "^abc" eq_refl) as [base [H [Hp _]]].
    exists base. split; [exact H | exact Hp].
Defined.

Lemma string_rules_trigger_on_presence_witness :
  patternChecks tableString tableParse tableMatchString
    (Some rulesEmptyContains)
  /\ exists st s,
       tableCollect (Some rulesEmptyContains) false = Ok st
       /\ tableForString (Some rulesEmptyContains) false = Ok (s, required st)
       /\ In "" (patterns st) /\ required st = true.
Proof.
  split; [exact I|].
  destruct (proj1 (string_rules_trigger_on_presence tableString tableParse
                     tableMatchString rulesEmptyContains false I))
    as [st [s [Hst [Hs [Hcontains _]]]]].
  exists st, s. split; [exact Hst|]. split; [exact Hs|].
  exact (Hcontains "" eq_refl).
Defined.

(** C9 as stated fails: a bytes rule set whose Pattern text does not parse
    is translated all the same, the bytes translator never parses it. *)
Lemma malformed_bytes_pattern_is_translated :
  tableParse "(" = None
  /\ succeeds (tableScalar BytesT (Some constraintsBadBytesPattern))
  /\ ~ (forall kind c,
          patternRuleFailsToParse tableParse c ->
          aborts (tableScalar kind c)).
Proof.
  split; [reflexivity|]. split; [eexists; reflexivity|].
  intro H.
  destruct (H BytesT (Some constraintsBadBytesPattern)) as [f Hf];
    [|discriminate].
  exists "(". split; [|reflexivity].
  right. eexists. split; reflexivity.
Qed.

Lemma scalar_failure_conditions_witness :
  (forall q e, tableParse q = Some e -> wellFormed e = true)
  /\ aborts (tableScalar GroupT None)
  /\ aborts (tableScalar StringT
               (Some (FieldConstraints.mk false
                        (Some (FieldConstraints.FieldConstraints_String
                                 (StringRules.onlyPattern "("))))))
  /\ succeeds (tableScalar BytesT (Some constraintsBadBytesPattern)).
Proof.
  split; [exact tableParse_wellFormed|].
  split; [|split].
  - apply (proj1 (scalar_failure_conditions tableString tableParse
                    tableMatchString tableNumeric GroupT None
                    tableParse_wellFormed)).
    left. repeat split; discriminate.
  - apply (proj1 (scalar_failure_conditions tableString tableParse
                    tableMatchString tableNumeric StringT _
                    tableParse_wellFormed)).
    right. split; [reflexivity|].
    exists (StringRules.onlyPattern "("), "(".
    split; [reflexivity|]. split; [reflexivity|]. left. reflexivity.
  - apply (proj2 (scalar_failure_conditions tableString tableParse
                    tableMatchString tableNumeric BytesT _
                    tableParse_wellFormed)).
    intros [[_ [_ [H _]]]|[H _]]; [now elim H | discriminate].
Defined.

(** * Further properties *)

(** ** The schemas that the rule blocks build *)

Lemma stepFrame_compose (f1 f2 : StringState -> StringState)
  (g1 g2 : StringSchema Schema -> StringSchema Schema)
  (frag1 frag2 : list Schema) :
  stepFrame f1 g1 frag1 -> stepFrame f2 g2 frag2 ->
  stepFrame (fun st => f2 (f1 st)) (fun s => g2 (g1 s)) (frag1 ++ frag2)%list.
Proof.
  intros H1 H2 st.
  destruct (H1 st) as [A1 B1]. destruct (H2 (f1 st)) as [A2 B2].
  split; [now rewrite A2, A1 | now rewrite B2, B1, app_assoc].
Qed.

Ltac frame_cases :=
  intro st; simpl; rewrite ?app_nil_r; split; reflexivity.

Section Frames.

Variable rules : StringRules.t.
Variable ie : bool.

Lemma ruleConst_frame :
  stepFrame (ruleConst rules ie)
    (fun s => match StringRules.Const rules with
              | Some c => setConst (Some c) s
              | None => s
              end) [].
Proof. unfold ruleConst. destruct (StringRules.Const rules); frame_cases. Qed.

Lemma ruleContains_frame : stepFrame (ruleContains rules ie) (fun s => s) [].
Proof.
  unfold ruleContains. destruct (StringRules.Contains rules); frame_cases.
Qed.

Lemma ruleIn_frame :
  stepFrame (ruleIn rules ie)
    (fun s => match StringRules.In rules with
              | [] => s
              | l => setEnum l s
              end) [].
Proof. unfold ruleIn. destruct (StringRules.In rules); frame_cases. Qed.

Lemma ruleLen_frame :
  stepFrame (ruleLen rules ie)
    (fun s => match StringRules.Len rules with
              | Some n => setMinLength (Some n) (setMaxLength (Some n) s)
              | None => s
              end) [].
Proof. unfold ruleLen. destruct (StringRules.Len rules); frame_cases. Qed.

Lemma ruleLenBytes_frame : stepFrame (ruleLenBytes rules ie) (fun s => s) [].
Proof.
  unfold ruleLenBytes.
  destruct (isSome (StringRules.LenBytes rules)
            || isSome (StringRules.MinBytes rules)); frame_cases.
Qed.

Lemma ruleMaxLen_frame :
  stepFrame (ruleMaxLen rules)
    (fun s => match StringRules.MaxLen rules with
              | Some n => setMaxLength (Some n) s
              | None => s
              end) [].
Proof. unfold ruleMaxLen. destruct (StringRules.MaxLen rules); frame_cases. Qed.

Lemma ruleMinLen_frame :
  stepFrame (ruleMinLen rules ie)
    (fun s => match StringRules.MinLen rules with
              | Some n => setMinLength (Some n) s
              | None => s
              end) [].
Proof. unfold ruleMinLen. destruct (StringRules.MinLen rules); frame_cases. Qed.

Lemma ruleNotContains_frame :
  stepFrame (ruleNotContains rules) (fun s => s) (notContainsFragment rules).
Proof.
  unfold ruleNotContains, notContainsFragment.
  destruct (StringRules.NotContains rules); frame_cases.
Qed.

Lemma ruleNotIn_frame :
  stepFrame (ruleNotIn rules) (fun s => s) (notInFragment rules).
Proof.
  unfold ruleNotIn, notInFragment.
  destruct (StringRules.NotIn rules); frame_cases.
Qed.

Lemma rulePrefix_frame : stepFrame (rulePrefix rules ie) (fun s => s) [].
Proof. unfold rulePrefix. destruct (StringRules.Prefix rules); frame_cases. Qed.

Lemma ruleSuffix_frame : stepFrame (ruleSuffix rules ie) (fun s => s) [].
Proof. unfold ruleSuffix. destruct (StringRules.Suffix rules); frame_cases. Qed.

Lemma ruleWellKnown_frame :
  stepFrame (ruleWellKnown rules ie)
    (fun s => match formatOf (StringRules.WellKnown rules) with
              | Some f => setFormat (Some f) s
              | None => s
              end)
    (wellKnownFragment (StringRules.WellKnown rules)).
Proof.
  unfold ruleWellKnown.
  destruct (StringRules.WellKnown rules) as [[v|v|v|v|v|v|v|v]|]; frame_cases.
Qed.

Lemma beforePattern_frame :
  stepFrame
    (fun st =>
       ruleNotIn rules
         (ruleNotContains rules
            (ruleMinLen rules ie
               (ruleMaxLen rules
                  (ruleLenBytes rules ie
                     (ruleLen rules ie
                        (ruleIn rules ie
                           (ruleContains rules ie
                              (ruleConst rules ie st)))))))))
    (fun s =>
       match StringRules.MinLen rules with
       | Some n => setMinLength (Some n)
       | None => fun s => s
       end
         (match StringRules.MaxLen rules with
          | Some n => setMaxLength (Some n)
          | None => fun s => s
          end
            (match StringRules.Len rules with
             | Some n => fun s => setMinLength (Some n) (setMaxLength (Some n) s)
             | None => fun s => s
             end
               (match StringRules.In rules with
                | [] => fun s => s
                | l => setEnum l
                end
                  (match StringRules.Const rules with
                   | Some c => setConst (Some c)
                   | None => fun s => s
                   end s)))))
    (notContainsFragment rules ++ notInFragment rules)%list.
Proof.
  pose proof
    (stepFrame_compose _ _ _ _ _ _
       (stepFrame_compose _ _ _ _ _ _
          (stepFrame_compose _ _ _ _ _ _
             (stepFrame_compose _ _ _ _ _ _
                (stepFrame_compose _ _ _ _ _ _
                   (stepFrame_compose _ _ _ _ _ _
                      (stepFrame_compose _ _ _ _ _ _
                         (stepFrame_compose _ _ _ _ _ _
                            ruleConst_frame ruleContains_frame)
                         ruleIn_frame)
                      ruleLen_frame)
                   ruleLenBytes_frame)
                ruleMaxLen_frame)
             ruleMinLen_frame)
          ruleNotContains_frame)
       ruleNotIn_frame) as H.
  simpl in H. intro st. destruct (H st) as [H1 H2]. split.
  - rewrite H1.
    destruct (StringRules.MinLen rules), (StringRules.MaxLen rules),
      (StringRules.Len rules), (StringRules.In rules),
      (StringRules.Const rules); reflexivity.
  - exact H2.
Qed.

Lemma afterPattern_frame :
  stepFrame
    (fun st => ruleWellKnown rules ie (ruleSuffix rules ie
                                         (rulePrefix rules ie st)))
    (fun s => match formatOf (StringRules.WellKnown rules) with
              | Some f => setFormat (Some f) s
              | None => s
              end)
    (wellKnownFragment (StringRules.WellKnown rules)).
Proof.
  pose proof
    (stepFrame_compose _ _ _ _ _ _
       (stepFrame_compose _ _ _ _ _ _ rulePrefix_frame ruleSuffix_frame)
       ruleWellKnown_frame) as H.
  simpl in H. exact H.
Qed.

End Frames.

(** ** The string translator in closed form *)

Section ClosedForms.

Variable regexpString : Regexp -> string.
Variable Parse : string -> option Regexp.
Variable MatchString : string -> string -> option bool.
Variable schemaForNumericScalar :
  ProtoType -> option FieldConstraints.t -> Schema * bool.

Local Abbreviation rewrite_ :=
  (makeRegexpCompatibleWithECMAScript regexpString Parse).
Local Abbreviation probe := (matchesEmptyString MatchString).
Local Abbreviation checks := (patternChecks regexpString Parse MatchString).
Local Abbreviation collected := (collectedPatterns regexpString Parse).
Local Abbreviation implied := (impliesRequired MatchString).
Local Abbreviation collect := (collectString regexpString Parse MatchString).
Local Abbreviation forString :=
  (schemaForString regexpString Parse MatchString).
Local Abbreviation forScalar :=
  (schemaForScalar regexpString Parse MatchString schemaForNumericScalar).

Lemma checks_dec (rules : option StringRules.t) :
  checks rules \/ ~ checks rules.
Proof.
  destruct rules as [r|]; simpl; [|now left].
  destruct (StringRules.Pattern r) as [p|]; [|now left].
  destruct (succeeds_or_aborts (rewrite_ p)) as [H1|H1];
    destruct (succeeds_or_aborts (probe p)) as [H2|H2];
    try (left; split; assumption);
    right; intros [G1 G2];
    first [ now apply aborts_not_succeeds in H1
          | now apply aborts_not_succeeds in H2 ].
Qed.

Lemma rulePattern_frame (rules : StringRules.t) (ie : bool)
  (st st' : StringState) :
  rulePattern regexpString Parse MatchString rules ie st = Ok st' ->
  schema st' = schema st /\ schemas st' = schemas st.
Proof.
  unfold rulePattern. destruct (StringRules.Pattern rules) as [p|].
  - destruct (rewrite_ p) as [t|f]; simpl; [|discriminate].
    destruct (probe p) as [[|]|f]; simpl; try discriminate;
      intro H; injection H as <-; split; reflexivity.
  - intro H. injection H as <-. split; reflexivity.
Qed.

(** The failure of the Pattern block is that of the rewrite, or else that
    of the probe; it depends neither on the flag nor on the state. *)
Lemma rulePattern_abort (rules : StringRules.t) (ie : bool)
  (st : StringState) (f : Failure) :
  rulePattern regexpString Parse MatchString rules ie st = Abort f <->
  exists p, StringRules.Pattern rules = Some p
            /\ (rewrite_ p = Abort f
                \/ (succeeds (rewrite_ p) /\ probe p = Abort f)).
Proof.
  unfold rulePattern. destruct (StringRules.Pattern rules) as [p|].
  - destruct (rewrite_ p) as [t|g] eqn:Hr; simpl.
    + destruct (probe p) as [m|g] eqn:Hp; simpl.
      * split; [discriminate|].
        intros [q [Hq [H|[_ H]]]]; injection Hq as <-; congruence.
      * split.
        -- intro H. injection H as <-. exists p. split; [reflexivity|].
           right. split; [now exists t | exact Hp].
        -- intros [q [Hq [H|[_ H]]]]; injection Hq as <-; congruence.
    + split.
      * intro H. injection H as <-. exists p. split; [reflexivity|].
        left. exact Hr.
      * intros [q [Hq [H|[[t Ht] _]]]]; injection Hq as <-; congruence.
  - split; [discriminate|]. intros [p [H _]]. discriminate.
Qed.

Lemma applyRules_frame (rules : StringRules.t) (ie : bool)
  (st st' : StringState) :
  applyRules regexpString Parse MatchString rules ie st = Ok st' ->
  schema st'
  = match formatOf (StringRules.WellKnown rules) with
    | Some f => setFormat (Some f)
    | None => fun s => s
    end
      (match StringRules.MinLen rules with
       | Some n => setMinLength (Some n)
       | None => fun s => s
       end
         (match StringRules.MaxLen rules with
          | Some n => setMaxLength (Some n)
          | None => fun s => s
          end
            (match StringRules.Len rules with
             | Some n =>
                 fun s => setMinLength (Some n) (setMaxLength (Some n) s)
             | None => fun s => s
             end
               (match StringRules.In rules with
                | [] => fun s => s
                | l => setEnum l
                end
                  (match StringRules.Const rules with
                   | Some c => setConst (Some c)
                   | None => fun s => s
                   end (schema st))))))
  /\ schemas st' = (schemas st ++ appendedFragments rules)%list.
Proof.
  unfold applyRules. intro H.
  apply bind_Ok in H. destruct H as [mid [Hmid H]]. injection H as <-.
  apply rulePattern_frame in Hmid. destruct Hmid as [M1 M2].
  destruct (afterPattern_frame rules ie mid) as [A1 A2].
  destruct (beforePattern_frame rules ie st) as [B1 B2].
  split.
  - rewrite A1, M1, B1.
    destruct (formatOf (StringRules.WellKnown rules)); reflexivity.
  - rewrite A2, M2, B2. unfold appendedFragments. now rewrite <- !app_assoc.
Qed.

Lemma applyRules_abort (rules : StringRules.t) (ie : bool)
  (st : StringState) (f : Failure) :
  applyRules regexpString Parse MatchString rules ie st = Abort f <->
  exists p, StringRules.Pattern rules = Some p
            /\ (rewrite_ p = Abort f
                \/ (succeeds (rewrite_ p) /\ probe p = Abort f)).
Proof.
  rewrite <- (rulePattern_abort rules ie
                (ruleNotIn rules
                   (ruleNotContains rules
                      (ruleMinLen rules ie
                         (ruleMaxLen rules
                            (ruleLenBytes rules ie
                               (ruleLen rules ie
                                  (ruleIn rules ie
                                     (ruleContains rules ie
                                        (ruleConst rules ie st)))))))))).
  unfold applyRules.
  match goal with
  | |- context [bind ?r _] => destruct r as [mid|g]
  end; simpl; split; congruence.
Qed.

(** The state at the start of the merge, in closed form. *)
Lemma collect_closed_form (rules : StringRules.t) (ie : bool) :
  checks (Some rules) ->
  collect (Some rules) ie
  = Ok (mkState (baseSchema rules) (appendedFragments rules)
                (collected rules) (implied rules && negb ie)).
Proof.
  intro Hc.
  destruct (collectString_spec regexpString Parse MatchString
              (Some rules) ie) as [Hok _].
  destruct (Hok Hc) as [st [Hst [H1 [H2 _]]]].
  rewrite Hst. f_equal.
  unfold collectString in Hst. apply applyRules_frame in Hst.
  destruct Hst as [S1 S2]. simpl in S1, S2.
  destruct st as [sch schs pats req]. simpl in *. subst.
  f_equal. unfold baseSchema.
  destruct rules as [cst len minl maxl lb mb xb pat pre suf con ncon
                       inn nin wk]; simpl.
  destruct wk as [[v|v|v|v|v|v|v|v]|], minl, maxl, len, inn, cst;
    reflexivity.
Qed.

Lemma forString_abort (rules : StringRules.t) (ie : bool) (f : Failure) :
  forString (Some rules) ie = Abort f <->
  exists p, StringRules.Pattern rules = Some p
            /\ (rewrite_ p = Abort f
                \/ (succeeds (rewrite_ p) /\ probe p = Abort f)).
Proof.
  rewrite <- (applyRules_abort rules ie (mkState NewStringSchema [] [] false)).
  unfold schemaForString, collectString.
  match goal with
  | |- context [bind ?r _] => destruct r as [st|g]
  end; simpl; split; congruence.
Qed.

(** The result of the string translator, in closed form. *)
Lemma forString_closed_form (rules : StringRules.t) (ie : bool) :
  checks (Some rules) ->
  forString (Some rules) ie
  = Ok (AllOf
          (String_ (mergedBase rules (collected rules))
           :: (appendedFragments rules
               ++ mergedSchemas (collected rules))%list),
        implied rules && negb ie).
Proof.
  intro Hc. unfold schemaForString.
  rewrite (collect_closed_form rules ie Hc). cbn [bind].
  unfold mergePatterns, mergedPattern, mergedSchemas. cbn [patterns].
  destruct (collected rules) as [|p [|q l]].
  - cbn. now rewrite app_nil_r.
  - cbn. now rewrite app_nil_r.
  - rewrite mergePatterns_many. reflexivity.
Qed.

(** X4: when the Pattern rule (if any) passes its checks, the string
    translator returns the conjunction of: the base schema [mergedBase],
    which carries Const, In (as Enum), the lengths, the format and, as its
    Pattern, the fragment when exactly one was collected and the empty text
    otherwise; then the negation of the schema with the escaped NotContains
    text as Pattern, the negation of the schema with NotIn as Enum and the
    disjunction of format schemas of Address or Ip, in this order; then,
    unless exactly one fragment was collected, one schema per fragment with
    that fragment as Pattern, in the order Contains, Pattern, Prefix,
    Suffix.  Every schema is given as a record of its attributes. *)
Theorem string_translator_closed_form (rules : StringRules.t) (ie : bool) :
  checks (Some rules) ->
  forString (Some rules) ie
  = Ok (AllOf
          (String_ (mergedBase rules (collected rules))
           :: (appendedFragments rules
               ++ mergedSchemas (collected rules))%list),
        implied rules && negb ie).
Proof. exact (forString_closed_form rules ie). Qed.

(** X2: the string translator returns required = true if and only if the
    ignore-empty flag is false and one of these rules is present: Const,
    Contains, a non-empty In, Len, LenBytes, MinBytes, MinLen, a Pattern on
    which the probe reports no empty match, Prefix, Suffix, a well-known
    format.  MaxLen, MaxBytes, NotContains and NotIn never give required. *)
Theorem string_required_iff (rules : StringRules.t) (ie : bool) :
  checks (Some rules) ->
  exists s req,
    forString (Some rules) ie = Ok (s, req)
    /\ (req = true <->
        ie = false
        /\ (StringRules.Const rules <> None
            \/ StringRules.Contains rules <> None
            \/ StringRules.In rules <> []
            \/ StringRules.Len rules <> None
            \/ StringRules.LenBytes rules <> None
            \/ StringRules.MinBytes rules <> None
            \/ StringRules.MinLen rules <> None
            \/ (exists p, StringRules.Pattern rules = Some p
                          /\ probe p = Ok false)
            \/ StringRules.Prefix rules <> None
            \/ StringRules.Suffix rules <> None
            \/ StringRules.WellKnown rules <> None)).
Proof.
  intro Hc. rewrite (forString_closed_form rules ie Hc).
  eexists. eexists. split; [reflexivity|].
  assert (Hpat : patternRequires MatchString rules = true <->
                 exists p, StringRules.Pattern rules = Some p
                           /\ probe p = Ok false).
  { unfold patternRequires.
    destruct (StringRules.Pattern rules) as [p|].
    - destruct (probe p) as [[|]|f] eqn:Hp; simpl; split;
        try discriminate;
        try (intros [q [Hq H]]; injection Hq as <-; congruence).
      intros _. now exists p.
    - split; [discriminate|]. intros [p [H _]]. discriminate. }
  unfold impliesRequired.
  rewrite andb_true_iff, negb_true_iff, !orb_true_iff, Hpat,
    !isSome_true, nonEmpty_true.
  tauto.
Qed.

(** X3: in the base schema of the result, Const and Enum are the Const and
    In rules; MaxLength is MaxLen when present and Len otherwise, MinLength
    is MinLen when present and Len otherwise (the later block overrides
    Len); Format is set for Email, Hostname, Ipv4, Ipv6, Uri and UriRef and
    stays unset for Address and Ip; the byte-length rules leave no trace. *)
Theorem string_base_schema_attributes (rules : StringRules.t) (ie : bool) :
  checks (Some rules) ->
  exists base rest req,
    forString (Some rules) ie = Ok (AllOf (String_ base :: rest), req)
    /\ Const base = StringRules.Const rules
    /\ Enum base = StringRules.In rules
    /\ MaxLength base
       = orElse (StringRules.MaxLen rules) (StringRules.Len rules)
    /\ MinLength base
       = orElse (StringRules.MinLen rules) (StringRules.Len rules)
    /\ Format base = formatOf (StringRules.WellKnown rules)
    /\ Title base = "" /\ OneOf base = [].
Proof.
  intro Hc. rewrite (forString_closed_form rules ie Hc).
  do 3 eexists. split; [reflexivity|]. repeat split.
Qed.

(** X13: the conjunction that the string translator returns has at least
    one and at most eight members: the base schema, at most three appended
    fragments and at most four pattern schemas. *)
Theorem string_conjunction_size (rules : option StringRules.t) (ie : bool) :
  checks rules ->
  exists l req,
    forString rules ie = Ok (AllOf l, req)
    /\ (1 <= length l <= 8)%nat.
Proof.
  destruct rules as [r|]; intro Hc.
  - rewrite (forString_closed_form r ie Hc).
    do 2 eexists. split; [reflexivity|].
    simpl. rewrite length_app.
    assert (Hf : (length (appendedFragments r) <= 3)%nat).
    { unfold appendedFragments, notContainsFragment, notInFragment,
        wellKnownFragment.
      rewrite !length_app.
      destruct (StringRules.NotContains r), (StringRules.NotIn r),
        (StringRules.WellKnown r) as [[v|v|v|v|v|v|v|v]|]; simpl; lia. }
    assert (Hp : (length (mergedSchemas (collected r)) <= 4)%nat).
    { assert (Hl : (length (collected r) <= 4)%nat).
      { unfold collectedPatterns, containsFragment, patternFragment,
          prefixFragment, suffixFragment.
        rewrite !length_app.
        destruct (StringRules.Contains r), (StringRules.Prefix r),
          (StringRules.Suffix r), (StringRules.Pattern r) as [p|];
          simpl; try destruct (rewrite_ p); simpl; lia. }
      unfold mergedSchemas.
      destruct (collected r) as [|p [|q l]]; simpl in *;
        rewrite ?length_map; lia. }
    lia.
  - do 2 eexists. split; [reflexivity|]. simpl. lia.
Qed.

(** X5: the ignore-empty flag changes nothing but the required flag: for
    either value the string translator ends the run with the same failure
    or returns the same schema, and the bytes translator returns the same
    schema. *)
Theorem ignore_empty_changes_only_required
  (rules : option StringRules.t) (bytes : option BytesRules.t)
  (ie ie' : bool) :
  match forString rules ie, forString rules ie' with
  | Ok (s, _), Ok (s', _) => s = s'
  | Abort f, Abort f' => f = f'
  | _, _ => False
  end
  /\ fst (schemaForBytes bytes ie) = fst (schemaForBytes bytes ie').
Proof.
  split; [|reflexivity].
  destruct rules as [r|]; [|reflexivity].
  destruct (checks_dec (Some r)) as [Hc|Hc].
  - now rewrite !(forString_closed_form r _ Hc).
  - destruct (schemaForString_spec regexpString Parse MatchString
                (Some r) ie) as [_ Hfail].
    destruct (Hfail Hc) as [f Hf]. rewrite Hf.
    apply forString_abort in Hf.
    apply (forString_abort r ie') in Hf. now rewrite Hf.
Qed.

End ClosedForms.

(** ** When the rewriter panics *)

Section RewriterOutcome.

Variable regexpString : Regexp -> string.

Local Abbreviation write := (writeECMAScriptCompatibleRegexp regexpString).

Lemma mapResult_outcome (f : Regexp -> Result string) (sub : list Regexp) :
  (forall c, In c sub ->
     match f c with
     | Ok _ => renderable c = true
     | Abort g => renderable c = false /\ g = IndexOutOfRange
     end) ->
  match mapResult f sub with
  | Ok _ => renderable (node OpConcat sub) = true
  | Abort g => renderable (node OpConcat sub) = false /\ g = IndexOutOfRange
  end.
Proof.
  induction sub as [|c rest IH]; intro H; [reflexivity|].
  assert (Hc := H c (or_introl eq_refl)).
  assert (Hrest := IH (fun d Hd => H d (or_intror Hd))).
  simpl in *. destruct (f c) as [s|g]; simpl.
  - rewrite Hc. simpl.
    destruct (mapResult f rest) as [ss|g]; simpl; exact Hrest.
  - destruct Hc as [-> ->]. split; reflexivity.
Qed.

Lemma write_outcome (e : Regexp) :
  match write e with
  | Ok _ => renderable e = true
  | Abort f => renderable e = false /\ f = IndexOutOfRange
  end.
Proof.
  induction e as [o sub r mn mx IH] using Regexp_nested_ind.
  rewrite Forall_forall in IH.
  assert (Hfirst :
            forall k : string -> string,
              match
                match sub with
                | [] => Abort IndexOutOfRange
                | c :: _ => s <- write c ;; Ok (k s)
                end
              with
              | Ok _ =>
                  match sub with [] => false | c :: _ => renderable c end
                  = true
              | Abort f =>
                  match sub with [] => false | c :: _ => renderable c end
                  = false /\ f = IndexOutOfRange
              end).
  { intro k. destruct sub as [|c rest]; [split; reflexivity|].
    specialize (IH c (or_introl eq_refl)).
    destruct (write c) as [s|f]; simpl; exact IH. }
  destruct o; try reflexivity;
    try (apply (Hfirst (fun s => "(" ++ s ++ ")")));
    try (destruct sub as [|c rest]; [split; reflexivity|];
         specialize (IH c (or_introl eq_refl)); simpl;
         destruct (write c) as [s|f]; simpl; exact IH).
  - rewrite (write_concat regexpString (mkRegexp OpConcat sub r mn mx) eq_refl).
    simpl Sub.
    change (renderable (mkRegexp OpConcat sub r mn mx))
      with (renderable (node OpConcat sub)).
    pose proof (mapResult_outcome (concatItem regexpString) sub) as H.
    destruct (mapResult (concatItem regexpString) sub) as [ss|g]; simpl;
      apply H; intros c Hc; unfold concatItem;
      specialize (IH c Hc); destruct (write c); simpl; exact IH.
  - rewrite (write_alternate regexpString
               (mkRegexp OpAlternate sub r mn mx) eq_refl).
    simpl Sub.
    change (renderable (mkRegexp OpAlternate sub r mn mx))
      with (renderable (node OpConcat sub)).
    pose proof (mapResult_outcome write sub) as H.
    destruct (mapResult write sub) as [ss|g]; simpl; apply H; exact IH.
Qed.

(** X9: the rewriter returns a text exactly on the trees in which every
    capture and repetition it reaches has a first subexpression; on every
    other tree it panics on the index, and it has no other failure. *)
Theorem rewriter_panics_exactly (e : Regexp) :
  (succeeds (write e) <-> renderable e = true)
  /\ (write e = Abort IndexOutOfRange <-> renderable e = false)
  /\ (forall f, write e = Abort f -> f = IndexOutOfRange).
Proof.
  pose proof (write_outcome e) as H.
  destruct (write e) as [s|f].
  - rewrite H. split; [|split].
    + split; [reflexivity | intros _; now exists s].
    + split; discriminate.
    + intros f Hf. discriminate.
  - destruct H as [-> ->]. split; [|split].
    + split; [intros [s Hs]; discriminate | discriminate].
    + split; reflexivity.
    + intros f Hf. now injection Hf as <-.
Qed.

(** X10: a concatenation and an alternation without subexpressions render
    as the empty text; an alternation with one subexpression renders as
    that subexpression, and so does a concatenation whose one subexpression
    is not an alternation. *)
Theorem concat_alternate_edges (c : Regexp) (r : list Z) (mn mx : Z) :
  write (mkRegexp OpConcat [] r mn mx) = Ok ""
  /\ write (mkRegexp OpAlternate [] r mn mx) = Ok ""
  /\ write (mkRegexp OpAlternate [c] r mn mx) = write c
  /\ (op c <> OpAlternate -> write (mkRegexp OpConcat [c] r mn mx) = write c).
Proof.
  repeat split.
  - simpl. destruct (write c) as [s|f]; simpl; [|reflexivity].
    now rewrite append_nil_r.
  - intro Hop. simpl. destruct (write c) as [s|f]; simpl; [|reflexivity].
    assert (Hb : op_eqb (op c) OpAlternate = false).
    { unfold op_eqb. apply Z.eqb_neq. intro H. apply Hop.
      destruct (op c); simpl in H; try discriminate; reflexivity. }
    rewrite Hb. now rewrite append_nil_r.
Qed.

End RewriterOutcome.

(** ** How the dispatcher fails, and what it returns without rules *)

Section DispatcherProperties.

Variable regexpString : Regexp -> string.
Variable Parse : string -> option Regexp.
Variable MatchString : string -> string -> option bool.
Variable schemaForNumericScalar :
  ProtoType -> option FieldConstraints.t -> Schema * bool.

Local Abbreviation write := (writeECMAScriptCompatibleRegexp regexpString).
Local Abbreviation rewrite_ :=
  (makeRegexpCompatibleWithECMAScript regexpString Parse).
Local Abbreviation probe := (matchesEmptyString MatchString).
Local Abbreviation forString :=
  (schemaForString regexpString Parse MatchString).
Local Abbreviation forScalar :=
  (schemaForScalar regexpString Parse MatchString schemaForNumericScalar).

Lemma rewrite_abort (p : string) (f : Failure) :
  rewrite_ p = Abort f <->
  (f = FailedToParseRegularExpression /\ Parse p = None)
  \/ (f = IndexOutOfRange
      /\ exists e, Parse p = Some e /\ renderable e = false).
Proof.
  unfold makeRegexpCompatibleWithECMAScript.
  destruct (Parse p) as [e|].
  - pose proof (write_outcome regexpString e) as H.
    destruct (write e) as [s|g]; split.
    + discriminate.
    + intros [[_ H1]|[_ [e' [H1 H2]]]]; [discriminate|].
      injection H1 as <-. congruence.
    + intro Hf. injection Hf as <-. destruct H as [H ->].
      right. split; [reflexivity|]. now exists e.
    + intros [[_ H1]|[-> _]]; [discriminate|].
      destruct H as [_ ->]. reflexivity.
  - split.
    + intro H. injection H as <-. now left.
    + intros [[-> _]|[_ [e [H _]]]]; [reflexivity | discriminate].
Qed.

Lemma probe_abort (p : string) (f : Failure) :
  probe p = Abort f <->
  f = FailedToCheckEmptyMatch /\ MatchString p "" = None.
Proof.
  unfold matchesEmptyString. destruct (MatchString p "") as [m|]; split.
  - discriminate.
  - intros [_ H]. discriminate.
  - intro H. injection H as <-. now split.
  - intros [-> _]. reflexivity.
Qed.

Lemma forString_None_abort (ie : bool) (f : Failure) :
  forString None ie <> Abort f.
Proof. discriminate. Qed.

(** X8: with the kind String the run ends with the parse failure exactly
    when the Pattern text does not parse, whatever the probe would say (the
    rewrite comes first); with the probe failure exactly when the text
    parses, the rewrite returns and the probe errors; with an index panic
    exactly when the text parses to a tree on which the rewriter panics. *)
Theorem string_failure_kinds (c : option FieldConstraints.t) :
  (forScalar StringT c = Abort FailedToParseRegularExpression <->
   exists r p, FieldConstraints.GetString_ c = Some r
               /\ StringRules.Pattern r = Some p
               /\ Parse p = None)
  /\ (forScalar StringT c = Abort FailedToCheckEmptyMatch <->
      exists r p, FieldConstraints.GetString_ c = Some r
                  /\ StringRules.Pattern r = Some p
                  /\ succeeds (rewrite_ p)
                  /\ MatchString p "" = None)
  /\ (forScalar StringT c = Abort IndexOutOfRange <->
      exists r p e, FieldConstraints.GetString_ c = Some r
                    /\ StringRules.Pattern r = Some p
                    /\ Parse p = Some e
                    /\ renderable e = false).
Proof.
  rewrite (forScalar_string regexpString Parse MatchString
             schemaForNumericScalar c).
  set (ie := match c with
             | Some c0 => FieldConstraints.IgnoreEmpty c0
             | None => false
             end).
  destruct (FieldConstraints.GetString_ c) as [r|].
  - rewrite !(forString_abort regexpString Parse MatchString r ie).
    split; [|split]; split.
    + intros [p [Hp [H|[_ H]]]].
      * apply rewrite_abort in H. destruct H as [[_ H]|[H _]];
          [|discriminate].
        now exists r, p.
      * apply probe_abort in H. destruct H as [H _]. discriminate.
    + intros [r' [p [Hr [Hp H]]]]. injection Hr as <-.
      exists p. split; [exact Hp|]. left. apply rewrite_abort. now left.
    + intros [p [Hp [H|[Hs H]]]].
      * apply rewrite_abort in H. destruct H as [[H _]|[H _]]; discriminate.
      * apply probe_abort in H. destruct H as [_ H]. now exists r, p.
    + intros [r' [p [Hr [Hp [Hs H]]]]]. injection Hr as <-.
      exists p. split; [exact Hp|]. right. split; [exact Hs|].
      now apply probe_abort.
    + intros [p [Hp [H|[_ H]]]].
      * apply rewrite_abort in H.
        destruct H as [[H _]|[_ [e [He Hr]]]]; [discriminate|].
        now exists r, p, e.
      * apply probe_abort in H. destruct H as [H _]. discriminate.
    + intros [r' [p [e [Hr [Hp [He H]]]]]]. injection Hr as <-.
      exists p. split; [exact Hp|]. left. apply rewrite_abort.
      right. split; [reflexivity|]. now exists e.
  - split; [|split]; split; try discriminate;
      intros [r [p H]]; try destruct H as [e H];
      destruct H as [H _]; discriminate.
Qed.

(** X7: the dispatcher reports an unexpected scalar type exactly for the
    kinds Group, Message and Enum, whatever the constraints. *)
Theorem unexpected_scalar_kinds
  (kind : ProtoType) (c : option FieldConstraints.t) :
  forScalar kind c = Abort UnexpectedScalarType <->
  kind = GroupT \/ kind = MessageT \/ kind = EnumT.
Proof.
  destruct kind;
    try (split; [discriminate | intros [H|[H|H]]; discriminate]);
    try (split; [intros _; tauto | reflexivity]).
  rewrite (forScalar_string regexpString Parse MatchString
             schemaForNumericScalar c).
  split; [|intros [H|[H|H]]; discriminate].
  intro H. exfalso.
  destruct (FieldConstraints.GetString_ c) as [r|]; [|discriminate].
  apply forString_abort in H. destruct H as [p [_ [H|[_ H]]]].
  - apply rewrite_abort in H. destruct H as [[H _]|[H _]]; discriminate.
  - apply probe_abort in H. destruct H as [H _]. discriminate.
Qed.

(** X6: constraints that are nil, that carry no rules, or that carry rules
    of another kind than the scalar, translate like no constraint at all,
    whatever their ignore-empty flag: the plain boolean schema, the bytes
    schema, or the conjunction of the plain string schema alone, each with
    required = false; an empty string rule set gives the same. *)
Theorem unconstrained_inputs (ie : bool) (b : BoolRules.t)
  (y : BytesRules.t) (s : StringRules.t) :
  let plainString := Ok (AllOf [String_ NewStringSchema], false) in
  let plainBytes := Ok (fst (schemaForBytes None false), false) in
  let plainBool := Ok (Boolean None, false) in
  let constraints t := Some (FieldConstraints.mk ie t) in
  (forScalar StringT None = plainString
   /\ forScalar StringT (constraints None) = plainString
   /\ forScalar StringT
        (constraints (Some (FieldConstraints.FieldConstraints_Bool b))) = plainString
   /\ forScalar StringT
        (constraints (Some (FieldConstraints.FieldConstraints_Bytes y))) = plainString
   /\ forScalar StringT
        (constraints (Some FieldConstraints.FieldConstraints_Other)) = plainString
   /\ forScalar StringT
        (constraints (Some (FieldConstraints.FieldConstraints_String
                     StringRules.empty))) = plainString)
  /\ (forScalar BytesT None = plainBytes
      /\ forScalar BytesT (constraints None) = plainBytes
      /\ forScalar BytesT
           (constraints (Some (FieldConstraints.FieldConstraints_Bool b))) = plainBytes
      /\ forScalar BytesT
           (constraints (Some (FieldConstraints.FieldConstraints_String s)))
         = plainBytes
      /\ forScalar BytesT
           (constraints (Some FieldConstraints.FieldConstraints_Other)) = plainBytes
      /\ forScalar BytesT
           (constraints (Some (FieldConstraints.FieldConstraints_Bytes
                        BytesRules.empty))) = plainBytes)
  /\ (forScalar BoolT None = plainBool
      /\ forScalar BoolT (constraints None) = plainBool
      /\ forScalar BoolT
           (constraints (Some (FieldConstraints.FieldConstraints_Bytes y))) = plainBool
      /\ forScalar BoolT
           (constraints (Some (FieldConstraints.FieldConstraints_String s)))
         = plainBool
      /\ forScalar BoolT
           (constraints (Some FieldConstraints.FieldConstraints_Other)) = plainBool
      /\ forScalar BoolT
           (constraints (Some (FieldConstraints.FieldConstraints_Bool
                        (BoolRules.mk None)))) = plainBool).
Proof.
  cbv zeta. unfold schemaForScalar. simpl.
  repeat split; try reflexivity;
    unfold schemaForBytes; simpl; now rewrite andb_false_r.
Qed.

(** X1: the boolean translator returns the boolean schema with the Const
    rule as its const, and required = true exactly when the Const rule is
    present, for either value of Const; through the dispatcher this holds
    for every value of the ignore-empty flag. *)
Theorem bool_translator_spec (ie : bool) (v : option bool) :
  schemaForBool (Some (BoolRules.mk v)) = (Boolean v, isSome v)
  /\ schemaForBool None = (Boolean None, false)
  /\ forScalar BoolT
       (Some (FieldConstraints.mk ie
                (Some (FieldConstraints.FieldConstraints_Bool
                         (BoolRules.mk v)))))
     = Ok (Boolean v, isSome v).
Proof.
  unfold schemaForScalar, schemaForBool. simpl.
  destruct v; repeat split.
Qed.

End DispatcherProperties.

(** ** Escaping of metacharacters *)

Lemma special_backslash : special "\" = true.
Proof. reflexivity. Qed.

Lemma unquote_QuoteMeta (s : string) : unquote (QuoteMeta s) = s.
Proof.
  induction s as [|b rest IH]; [reflexivity|].
  simpl. destruct (special b) eqn:Hb.
  - simpl. now rewrite IH.
  - simpl. destruct (Ascii.eqb_spec b "\") as [->|_].
    + rewrite special_backslash in Hb. discriminate.
    + now rewrite IH.
Qed.

(** X11: escaping loses nothing: two texts with the same escaped form are
    the same text, so distinct Contains, Prefix or Suffix texts give
    distinct pattern fragments. *)
Theorem QuoteMeta_injective (a b : string) :
  QuoteMeta a = QuoteMeta b -> a = b.
Proof.
  intro H. rewrite <- (unquote_QuoteMeta a), <- (unquote_QuoteMeta b).
  now rewrite H.
Qed.

Lemma QuoteMeta_length (s : string) :
  (String.length s <= String.length (QuoteMeta s))%nat.
Proof.
  induction s as [|b rest IH]; simpl; [lia|].
  destruct (special b); simpl; lia.
Qed.

(** X12: a text is its own escaped form exactly when none of its bytes is
    one of the metacharacters [\.+*?()|[]{}^$]; otherwise the escaped form
    is longer. *)
Theorem QuoteMeta_plain (s : string) :
  (QuoteMeta s = s <-> plain s = true)
  /\ (plain s = false ->
      (String.length s < String.length (QuoteMeta s))%nat).
Proof.
  induction s as [|b rest [IH1 IH2]]; simpl.
  - split; [split; reflexivity | discriminate].
  - pose proof (QuoteMeta_length rest) as Hlen.
    destruct (special b) eqn:Hb; simpl.
    + split; [|intros _; lia].
      split; [|discriminate].
      intro H. apply (f_equal String.length) in H. simpl in H. lia.
    + split.
      * rewrite <- IH1. split; intro H; [now injection H | now rewrite H].
      * intro H. apply IH2 in H. lia.
Qed.

(** ** The further properties on concrete input *)

Lemma rulesMixed_checks :
  patternChecks tableString tableParse tableMatchString (Some rulesMixed).
Proof. split; eexists; reflexivity. Qed.

Lemma string_translator_closed_form_witness :
  patternChecks tableString tableParse tableMatchString (Some rulesMixed)
  /\ tableForString (Some rulesMixed) false
     = Ok (AllOf
             [String_ (mkString "" None [] None (Some 9%N) (Some 5%N) "" []);
              Not (String_ (mkString "" None [] None None None "x" []));
              Not (String_ (mkString "" None ["no"] None None None "" []));
              AnyOf [String_ (mkString "" None [] (Some StringFormatIPv4)
                                       None None "" []);
                     String_ (mkString "" None [] (Some StringFormatIPv6)
                                       None None "" [])];
              String_ (mkString "" None [] None None None "^ab+$" []);
              String_ (mkString "" None [] None None None "^a" [])],
           true).
Proof.
  split; [exact rulesMixed_checks|].
  exact (string_translator_closed_form tableString tableParse
           tableMatchString rulesMixed false rulesMixed_checks).
Defined.

Lemma string_required_iff_witness :
  patternChecks tableString tableParse tableMatchString (Some rulesMixed)
  /\ exists s req,
       tableForString (Some rulesMixed) false = Ok (s, req) /\ req = true.
Proof.
  split; [exact rulesMixed_checks|].
  destruct (string_required_iff tableString tableParse tableMatchString
              rulesMixed false rulesMixed_checks) as [s [req [H Hiff]]].
  exists s, req. split; [exact H|].
  apply Hiff. split; [reflexivity|].
  right. right. right. left. discriminate.
Defined.

Lemma string_base_schema_attributes_witness :
  patternChecks tableString tableParse tableMatchString (Some rulesMixed)
  /\ exists base rest req,
       tableForString (Some rulesMixed) false
       = Ok (AllOf (String_ base :: rest), req)
       /\ MaxLength base = Some 9%N /\ MinLength base = Some 5%N.
Proof.
  split; [exact rulesMixed_checks|].
  destruct (string_base_schema_attributes tableString tableParse
              tableMatchString rulesMixed false rulesMixed_checks)
    as [base [rest [req [H [_ [_ [Hmax [Hmin _]]]]]]]].
  exists base, rest, req. split; [exact H|]. split; [exact Hmax|exact Hmin].
Defined.

Lemma string_conjunction_size_witness :
  patternChecks tableString tableParse tableMatchString (Some rulesMixed)
  /\ exists l req,
       tableForString (Some rulesMixed) false = Ok (AllOf l, req)
       /\ (1 <= length l <= 8)%nat.
Proof.
  split; [exact rulesMixed_checks|].
  exact (string_conjunction_size tableString tableParse tableMatchString
           (Some rulesMixed) false rulesMixed_checks).
Defined.

Lemma QuoteMeta_injective_witness :
  QuoteMeta "a.b" = QuoteMeta "a.b" /\ "a.b" = "a.b".
Proof.
  split; [reflexivity|].
  exact (QuoteMeta_injective "a.b" "a.b" eq_refl).
Defined.
